(** * Acadion: attendance taking, the attendance table and the face-match engine

    A shallow embedding of the parts of the Acadion repository that decide
    how a photograph and the teacher's manual marks become attendance:

    - [TakeAttendance]: the React component of the "Take Attendance" page
      (state, [fetchStudents], [markAttendance], [handleFaceRecognition],
      [saveAttendance], [presentCount] and [absentCount]);
    - [FaceService]: [compare_faces] of the development guide;
    - [Schema]: the [attendance] table of the SQL schema with its
      [UNIQUE(subject_id, student_id, date)] constraint;
    - [Engine]: the matcher, the assignment resolver and the response of the
      face-match engine.  The backend that implements them is not part of
      the sources; these definitions follow the specification.
    - [Page]: the events of the "Take Attendance" page as a transition
      system;
    - [Assignment]: the tie-break rule of the resolver as a property of an
      assignment; [Enumeration]: [saveAttendance] under any enumeration
      order of the attendance object; [MultiRow]: inserts of several rows;
    - [Codes]: [generate_invite_code], [generate_subject_code] and the
      trigger [set_subject_codes] of the classroom schema;
    - [Dashboard], [AttendanceScreen], [Profile]: the attendance dashboard,
      the attendance screen of the mobile app and the face registration of
      the profile page.

    Scores are JavaScript and Python numbers that the code only copies and
    compares; they are modelled as canonical rationals [Qc], whose equality
    is Leibniz equality. *)

From Stdlib Require Import QArith Qcanon Qround ZArith DecimalString DecimalFacts DecimalPos DecimalN DecimalZ.
From stdpp Require Import gmap strings list fin_maps sorting.

Local Open Scope Z_scope.

(** ** Scores *)

(** The decimal [n/d], e.g. [score 82 100] for 0.82. *)
Definition score (n d : Z) : Qc := Q2Qc (Qmake n (Z.to_pos d)).

Definition Qcleb (x y : Qc) : bool := Qle_bool (this x) (this y).
Definition Qcltb (x y : Qc) : bool := negb (Qcleb y x).

(** ** The "Take Attendance" page *)

Module TakeAttendance.

Inductive Status := present | absent | late.
Inductive Method := manual | face_recognition.

#[global] Instance Status_eq_dec : EqDecision Status.
Proof. solve_decision. Defined.
#[global] Instance Method_eq_dec : EqDecision Method.
Proof. solve_decision. Defined.

(** [interface Student]. *)
Record Student := {
  user_id : string;
  name : string;
  email : string;
  is_face_registered : bool
}.

(** [interface AttendanceRecord].  At run time [student_id] can be
    [undefined] (a record built by spreading a missing entry, or from a
    response without [student_id]), hence the option. *)
Record AttendanceRecord := {
  student_id : option string;
  status : Status;
  method : Method;
  confidence_score : option Qc
}.

(** One entry of [recognized_students] in the response of
    [/api/attendance/mark-face]. *)
Record RecognizedStudent := {
  rs_student_id : string;
  rs_face_index : nat;
  rs_similarity_score : Qc
}.

(** The JSON body of the response ([result]), and the value kept in
    [faceResults].  Fields the handler reads but a response may lack are
    options ([undefined]). *)
Record FaceResult := {
  success : bool;
  message : option string;
  fr_student_id : option string;
  fr_similarity_score : option Qc;
  faces_detected : option Z;
  faces_recognized : option Z;
  faces_unrecognized : option Z;
  recognized_students : option (list RecognizedStudent);
  unrecognized_faces : option (list nat)
}.

(** What [await fetch(...)] followed by [await response.json()] does: it
    throws (network error, timeout, body that is not JSON), or it yields
    [response.ok] and the parsed body. *)
Inductive FetchOutcome :=
| Threw
| Responded (ok : bool) (result : FaceResult).

(** The body of [POST /api/attendance/manual]. *)
Record ManualBody := {
  mb_student_id : option string;
  mb_subject_id : string;
  mb_date : string;
  mb_status : Status
}.

Inductive Request :=
| GetStudents (classId : string)
| PostMarkFace (classId : string)
| PostManual (body : ManualBody).

(** The component state that the handlers read and write. *)
Record State := {
  students : list Student;
  attendance : gmap string AttendanceRecord;
  loading : bool;
  saving : bool;
  uploadingPhoto : bool;
  faceResults : option FaceResult
}.

Definition initialState : State :=
  {| students := []; attendance := ∅; loading := true; saving := false;
     uploadingPhoto := false; faceResults := None |}.

Definition setAttendance (f : gmap string AttendanceRecord → gmap string AttendanceRecord)
    (st : State) : State :=
  {| students := students st; attendance := f (attendance st);
     loading := loading st; saving := saving st;
     uploadingPhoto := uploadingPhoto st; faceResults := faceResults st |}.

Definition setFaceResults (r : option FaceResult) (st : State) : State :=
  {| students := students st; attendance := attendance st;
     loading := loading st; saving := saving st;
     uploadingPhoto := uploadingPhoto st; faceResults := r |}.

Definition setUploadingPhoto (b : bool) (st : State) : State :=
  {| students := students st; attendance := attendance st;
     loading := loading st; saving := saving st;
     uploadingPhoto := b; faceResults := faceResults st |}.

Definition setSaving (b : bool) (st : State) : State :=
  {| students := students st; attendance := attendance st;
     loading := loading st; saving := b;
     uploadingPhoto := uploadingPhoto st; faceResults := faceResults st |}.

(** [Object.values(o)].  JavaScript enumerates in property order, the model
    in the order of [map_to_list]; only order-insensitive facts (counts,
    membership) are stated about it. *)
Definition Object_values {A} (o : gmap string A) : list A := (map_to_list o).*2.

(** The [data.forEach] loop of [fetchStudents]: a later student with the
    same [user_id] overwrites the earlier entry. *)
Definition initialAttendance (data : list Student) : gmap string AttendanceRecord :=
  foldl (λ acc student,
           <[user_id student :=
               {| student_id := Some (user_id student); status := absent;
                  method := manual; confidence_score := None |}]> acc)
        ∅ data.

(** [fetchStudents]; [None] is a fetch that throws, [Some (ok, data)] a
    response. *)
Definition fetchStudents (resp : option (bool * list Student)) (st : State) : State :=
  let st' :=
    match resp with
    | Some (true, data) =>
        {| students := data; attendance := initialAttendance data;
           loading := loading st; saving := saving st;
           uploadingPhoto := uploadingPhoto st; faceResults := faceResults st |}
    | _ => st
    end in
  {| students := students st'; attendance := attendance st';
     loading := false; saving := saving st';
     uploadingPhoto := uploadingPhoto st'; faceResults := faceResults st' |}.

(** [markAttendance]: [{...prev, [studentId]: {...prev[studentId], status,
    method: 'manual'}}].  Spreading a missing entry contributes no field. *)
Definition markAttendance (studentId : string) (s : Status)
    (prev : gmap string AttendanceRecord) : gmap string AttendanceRecord :=
  <[studentId :=
      {| student_id := prev !! studentId ≫= student_id;
         status := s;
         method := manual;
         confidence_score := prev !! studentId ≫= confidence_score |}]> prev.

(** A computed property key is converted to a string. *)
Definition property_key (k : option string) : string := default "undefined" k.

(** The update made in the success branch of [handleFaceRecognition]. *)
Definition recognizedUpdate (result : FaceResult)
    (prev : gmap string AttendanceRecord) : gmap string AttendanceRecord :=
  <[property_key (fr_student_id result) :=
      {| student_id := fr_student_id result;
         status := present;
         method := face_recognition;
         confidence_score := fr_similarity_score result |}]> prev.

Definition networkErrorResult : FaceResult :=
  {| success := false; message := Some "Network error occurred";
     fr_student_id := None; fr_similarity_score := None;
     faces_detected := Some 0; faces_recognized := Some 0;
     faces_unrecognized := Some 0;
     recognized_students := None; unrecognized_faces := None |}.

(** [handleFaceRecognition]: [hasFile] is [event.target.files?.[0]] being
    there, [o] what the request to [/api/attendance/mark-face] does.  The
    result is the new state and the requests issued. *)
Definition handleFaceRecognition (classId : string) (hasFile : bool)
    (o : FetchOutcome) (st : State) : State * list Request :=
  if negb hasFile then (st, [])
  else
    let st1 := setFaceResults None (setUploadingPhoto true st) in
    let st2 :=
      match o with
      | Responded ok result =>
          let st' := setFaceResults (Some result) st1 in
          if ok && success result
          then setAttendance (recognizedUpdate result) st'
          else st'
      | Threw => setFaceResults (Some networkErrorResult) st1
      end in
    (setUploadingPhoto false st2, [PostMarkFace classId]).

(** The [for ... await fetch] loop of [saveAttendance]: [fetch_ok body]
    says whether the request resolves; a request that throws ends the loop.
    Returns the requests attempted and whether the loop completed. *)
Fixpoint postAll (fetch_ok : ManualBody → bool) (bodies : list ManualBody)
    : list Request * bool :=
  match bodies with
  | [] => ([], true)
  | b :: bodies' =>
      if fetch_ok b
      then let '(reqs, done) := postAll fetch_ok bodies' in (PostManual b :: reqs, done)
      else ([PostManual b], false)
  end.

Definition manualBody (classId today : string) (record : AttendanceRecord) : ManualBody :=
  {| mb_student_id := student_id record; mb_subject_id := classId;
     mb_date := today; mb_status := status record |}.

Definition attendanceRecords (attendance : gmap string AttendanceRecord)
    : list AttendanceRecord :=
  filter (λ record, status record = present) (Object_values attendance).

(** [saveAttendance]: the new state, the requests attempted and the text
    of the alert. *)
Definition saveAttendance (classId today : string) (fetch_ok : ManualBody → bool)
    (st : State) : State * list Request * string :=
  let '(reqs, done) :=
    postAll fetch_ok (manualBody classId today <$> attendanceRecords (attendance st)) in
  (setSaving false (setSaving true st), reqs,
   if done then "Attendance saved successfully!" else "Error saving attendance").

(** [presentCount] and [absentCount]; JavaScript numbers, so the
    difference can be negative. *)
Definition presentCount (attendance : gmap string AttendanceRecord) : Z :=
  Z.of_nat (length (filter (λ a, status a = present) (Object_values attendance))).

Definition absentCount (students : list Student)
    (attendance : gmap string AttendanceRecord) : Z :=
  Z.of_nat (length students) - presentCount attendance.

(** Number of entries of the map with a given status. *)
Definition statusCount (s : Status) (attendance : gmap string AttendanceRecord) : Z :=
  Z.of_nat (length (filter (λ a, status a = s) (Object_values attendance))).

End TakeAttendance.

(** ** [FaceService.compare_faces] of the development guide *)

Module FaceService.
Section compare_faces.
(** [face_recognition.face_distance] belongs to an external library: it
    gives one distance per known encoding. *)
Variable encoding : Type.
Variable face_distance : list encoding → encoding → list Qc.

(** The default of the keyword argument [threshold=0.6]. *)
Definition default_threshold : Qc := score 6 10.

(** [compare_faces(known_encodings, face_encoding, threshold=0.6)]:
    [distances < threshold], element by element. *)
Definition compare_faces (known_encodings : list encoding)
    (face_encoding : encoding) (threshold : option Qc) : list bool :=
  let distances := face_distance known_encodings face_encoding in
  (λ d, Qcltb d (default default_threshold threshold)) <$> distances.
End compare_faces.

(** The similarity of a distance bounded in [0,1]. *)
Definition similarity (distance : Qc) : Qc := (Q2Qc 1 - distance)%Qc.
End FaceService.

(** ** The [attendance] table *)

Module Schema.

(** A row of [CREATE TABLE attendance].  [subject_id], [student_id],
    [marked_by], [confidence_score] and [method] are nullable; [date] and
    [status] are [NOT NULL]. *)
Record attendance_row := {
  id : string;
  subject_id : option string;
  student_id : option string;
  date : string;
  status : string;
  marked_by : option string;
  confidence_score : option Qc;
  method : option string;
  created_at : string
}.

Abbreviation table := (list attendance_row).

(** [CHECK (status IN ('present', 'absent', 'late'))]. *)
Definition check_status (r : attendance_row) : bool :=
  bool_decide (status r ∈ ["present"; "absent"; "late"]).

(** [CHECK (method IN (...))]: a [NULL] passes a check constraint.  The
    list is ['manual', 'face_recognition'] in the classroom schema and
    has ['qr_code'] too in the initial migration. *)
Definition check_method (allowed : list string) (r : attendance_row) : bool :=
  match method r with
  | None => true
  | Some m => bool_decide (m ∈ allowed)
  end.

Definition classroom_methods : list string := ["manual"; "face_recognition"].
Definition migration_methods : list string := ["manual"; "face_recognition"; "qr_code"].

(** [id UUID PRIMARY KEY]. *)
Definition primary_key_conflict (r : attendance_row) (t : table) : bool :=
  bool_decide (Exists (λ r', id r' = id r) t).

(** Two rows collide on [UNIQUE(subject_id, student_id, date)] when the
    three columns are equal and none is [NULL] ([NULL]s are distinct). *)
Definition same_key (r r' : attendance_row) : Prop :=
  match subject_id r, student_id r with
  | Some c, Some i =>
      subject_id r' = Some c ∧ student_id r' = Some i ∧ date r' = date r
  | _, _ => False
  end.

#[global] Instance same_key_dec r r' : Decision (same_key r r').
Proof. unfold same_key. destruct (subject_id r), (student_id r); apply _. Defined.

Definition unique_conflict (r : attendance_row) (t : table) : bool :=
  bool_decide (Exists (same_key r) t).

Inductive sql_error := check_violation | unique_violation.

(** [INSERT INTO attendance VALUES (...)]. *)
Definition insert (allowed : list string) (r : attendance_row) (t : table)
    : sql_error + table :=
  if negb (check_status r && check_method allowed r) then inl check_violation
  else if primary_key_conflict r t || unique_conflict r t then inl unique_violation
  else inr (t ++ [r]).

(** [INSERT ... ON CONFLICT (student_id, subject_id, date) DO NOTHING], as
    the sample data of the migration is loaded. *)
Definition insert_do_nothing (allowed : list string) (r : attendance_row) (t : table)
    : sql_error + table :=
  if negb (check_status r && check_method allowed r) then inl check_violation
  else if unique_conflict r t then inr t
  else if primary_key_conflict r t then inl unique_violation
  else inr (t ++ [r]).

(** Statements that change the table: the two inserts of one row, and the
    deletions that [ON DELETE CASCADE] of the classroom schema performs when
    a subject or a user goes.  Inserts of several rows are in [MultiRow]. *)
Inductive statement :=
| Insert (r : attendance_row)
| InsertDoNothing (r : attendance_row)
| CascadeSubject (c : string)
| CascadeStudent (i : string).

(** A statement that fails leaves the table as it was. *)
Definition exec (allowed : list string) (s : statement) (t : table) : table :=
  match s with
  | Insert r => match insert allowed r t with inr t' => t' | inl _ => t end
  | InsertDoNothing r =>
      match insert_do_nothing allowed r t with inr t' => t' | inl _ => t end
  | CascadeSubject c => filter (λ r, subject_id r ≠ Some c) t
  | CascadeStudent i => filter (λ r, student_id r ≠ Some i) t
  end.

Definition run (allowed : list string) (ss : list statement) (t : table) : table :=
  foldl (λ t s, exec allowed s t) t ss.

(** The rows recorded for class [c], identity [i] and date [d]. *)
Definition rows_of (c i d : string) (t : table) : list attendance_row :=
  filter (λ r, subject_id r = Some c ∧ student_id r = Some i ∧ date r = d) t.

(** The uniqueness constraint, as an invariant of the table. *)
Definition key_unique (t : table) : Prop :=
  ∀ c i d, (length (rows_of c i d t) ≤ 1)%nat.

End Schema.

(** ** The face-match engine *)

Module Engine.

(** Modelled from the spec: the MatchCandidate and ResolvedMatch tuples
    ([face_index], [identity_id], [similarity_score]) of the data model;
    the backend that builds them is missing from the sources. *)
Record MatchCandidate := {
  face_index : nat;
  identity_id : string;
  similarity_score : Qc
}.

#[global] Instance MatchCandidate_eq_dec : EqDecision MatchCandidate.
Proof. solve_decision. Defined.

(** Modelled from the spec: the answer of the registry's [query] for one
    face, a list of [(identity_id, similarity_score)]; the registry client
    is missing from the sources. *)
Abbreviation query_result := (list (string * Qc)).

(** Modelled from the spec: the similarity matcher of section 4.4, missing
    from the sources.  Every returned pair with [score ≥ threshold] becomes
    a MatchCandidate of the face, the others are discarded. *)
Definition matcher (threshold : Qc) (face : nat) (q : query_result)
    : list MatchCandidate :=
  (λ p, {| face_index := face; identity_id := p.1; similarity_score := p.2 |})
    <$> filter (λ p, Qcleb threshold p.2) q.

(** Modelled from the spec: the candidates of all faces of one submission
    collected into one list (section 4.5); [face_index] is the position of
    the face in the photo.  Missing from the sources. *)
Definition candidates (threshold : Qc) (queries : list query_result)
    : list MatchCandidate :=
  concat (imap (matcher threshold) queries).

(** Modelled from the spec: the resolution order of section 4.5, missing
    from the sources: descending [similarity_score], exact ties by
    ascending [face_index], then by the order of the identities (here the
    lexicographic order of the ids). *)
Definition candidate_leb (c1 c2 : MatchCandidate) : bool :=
  if Qcltb (similarity_score c2) (similarity_score c1) then true
  else if Qcltb (similarity_score c1) (similarity_score c2) then false
  else if (face_index c1 <? face_index c2)%nat then true
  else if (face_index c2 <? face_index c1)%nat then false
  else String.leb (identity_id c1) (identity_id c2).

Definition candidate_le (c1 c2 : MatchCandidate) : Prop := candidate_leb c1 c2.

#[global] Instance candidate_le_dec : RelDecision candidate_le.
Proof. intros c1 c2. unfold candidate_le. apply _. Defined.

(** Modelled from the spec: the greedy pass of section 4.5, missing from
    the sources.  A candidate is accepted if and only if both its face and
    its identity are still unclaimed; both are marked claimed on
    acceptance. *)
Fixpoint greedy (claimed_faces : gset nat) (claimed_identities : gset string)
    (l : list MatchCandidate) : list MatchCandidate :=
  match l with
  | [] => []
  | c :: l' =>
      if decide ((face_index c ∉ claimed_faces) ∧ (identity_id c ∉ claimed_identities))
      then c :: greedy ({[face_index c]} ∪ claimed_faces)
                       ({[identity_id c]} ∪ claimed_identities) l'
      else greedy claimed_faces claimed_identities l'
  end.

(** Modelled from the spec: the assignment resolver of section 4.5, missing
    from the sources: sort all candidates, then the greedy pass. *)
Definition resolve (cands : list MatchCandidate) : list MatchCandidate :=
  greedy ∅ ∅ (merge_sort candidate_le cands).

(** Modelled from the spec: the response of an attendance submission
    (section 6), missing from the sources. *)
Record Response := {
  success : bool;
  faces_detected : nat;
  faces_recognized : nat;
  faces_unrecognized : nat;
  recognized_students : list MatchCandidate;
  unrecognized_faces : list nat
}.

(** Modelled from the spec: one submission that runs to completion, missing
    from the sources.  [queries] holds the registry's answer for each
    detected face, in the order of [face_index]; faces with no surviving
    candidate are unrecognized. *)
Definition submit (threshold : Qc) (queries : list query_result) : Response :=
  let resolved := resolve (candidates threshold queries) in
  let unrecognized :=
    filter (λ f, f ∉ (face_index <$> resolved)) (seq 0 (length queries)) in
  {| success := true;
     faces_detected := length queries;
     faces_recognized := length resolved;
     faces_unrecognized := length unrecognized;
     recognized_students := resolved;
     unrecognized_faces := unrecognized |}.

End Engine.


(** ** Statements and concrete inputs *)

Module Inputs.
Import TakeAttendance.

Definition alice : Student :=
  {| user_id := "A"; name := "Alice"; email := "alice@school.test";
     is_face_registered := true |}.
Definition bob : Student :=
  {| user_id := "B"; name := "Bob"; email := "bob@school.test";
     is_face_registered := true |}.

(** The page after the roster [alice; bob] has been fetched. *)
Definition roster_state : State :=
  fetchStudents (Some (true, [alice; bob])) initialState.

(** A successful response for a photo in which both students are
    recognized; the top-level [student_id] names the first of them. *)
Definition both_recognized : FaceResult :=
  {| success := true;
     message := Some "2 students recognized";
     fr_student_id := Some "A";
     fr_similarity_score := Some (score 82 100);
     faces_detected := Some 2;
     faces_recognized := Some 2;
     faces_unrecognized := Some 0;
     recognized_students :=
       Some [ {| rs_student_id := "A"; rs_face_index := 0;
                 rs_similarity_score := score 82 100 |};
              {| rs_student_id := "B"; rs_face_index := 1;
                 rs_similarity_score := score 65 100 |} ];
     unrecognized_faces := Some [] |}.


Definition always_ok : ManualBody → bool := λ _, true.

(** The page after [alice] was marked late by hand and [bob] was
    recognized in a photo. *)
Definition marked_state : State :=
  setAttendance (markAttendance "A" late)
    (setAttendance
       (recognizedUpdate
          {| success := true; message := None; fr_student_id := Some "B";
             fr_similarity_score := Some (score 65 100);
             faces_detected := Some 1; faces_recognized := Some 1;
             faces_unrecognized := Some 0;
             recognized_students := None; unrecognized_faces := None |})
       roster_state).

(** Two marks for the same class, identity and date. *)
Definition first_mark : Schema.attendance_row :=
  {| Schema.id := "row-1"; Schema.subject_id := Some "c1";
     Schema.student_id := Some "A"; Schema.date := "2024-09-02";
     Schema.status := "present"; Schema.marked_by := Some "T";
     Schema.confidence_score := Some (score 82 100);
     Schema.method := Some "face_recognition";
     Schema.created_at := "2024-09-02T09:00:00" |}.
Definition second_mark : Schema.attendance_row :=
  {| Schema.id := "row-2"; Schema.subject_id := Some "c1";
     Schema.student_id := Some "A"; Schema.date := "2024-09-02";
     Schema.status := "absent"; Schema.marked_by := Some "T";
     Schema.confidence_score := None;
     Schema.method := None;
     Schema.created_at := "2024-09-02T09:05:00" |}.
End Inputs.

Module Statements.
Import TakeAttendance.

(** The outcomes for which the page does not take the success branch: the
    request threw, or the response is not [ok], or it says
    [success = false]. *)
Definition failed (o : FetchOutcome) : Prop :=
  match o with
  | Threw => True
  | Responded ok result => ok = false ∨ success result = false
  end.



(** "Every identity listed in [recognized_students] is marked present with
    the face method and its own similarity score." *)
Definition all_recognized_marked (result : FaceResult)
    (attendance : gmap string AttendanceRecord) : Prop :=
  ∀ rs, rs ∈ default [] (recognized_students result) →
    ∃ r, attendance !! rs_student_id rs = Some r ∧
         status r = present ∧ method r = face_recognition ∧
         confidence_score r = Some (rs_similarity_score rs).

(** "Every enrolled identity that is not present gets a persisted record
    with status absent": a request carrying it is issued on save. *)
Definition absent_persisted (classId today : string)
    (fetch_ok : ManualBody → bool) (st : State) : Prop :=
  ∀ s, s ∈ students st →
    status <$> attendance st !! user_id s ≠ Some present →
    ∃ b, PostManual b ∈ (saveAttendance classId today fetch_ok st).1.2 ∧
         mb_student_id b = Some (user_id s) ∧ mb_status b = absent.

(** "A candidate is kept if and only if its score is at least the
    threshold", read on [compare_faces]: the score of the [i]-th known
    encoding is given by [score_of] from its distance. *)
Definition kept_iff_score_ge (score_of : Qc → Qc)
    (face_distance : list unit → unit → list Qc) (threshold : Qc) : Prop :=
  ∀ i d, face_distance [] () !! i = Some d →
    (FaceService.compare_faces unit face_distance [] () (Some threshold) !! i = Some true
     ↔ Qcle threshold (score_of d)).
End Statements.

(** ** The page as a transition system *)

Module Page.
Import TakeAttendance.

(** What the teacher can do on the page once the roster is loaded: toggle a
    student by hand, or submit a photo. *)
Inductive Event :=
| Toggle (studentId : string) (s : Status)
| Photo (classId : string) (hasFile : bool) (o : FetchOutcome).

Definition step (st : State) (e : Event) : State :=
  match e with
  | Toggle studentId s => setAttendance (markAttendance studentId s) st
  | Photo classId hasFile o => (handleFaceRecognition classId hasFile o st).1
  end.

Definition run (events : list Event) (st : State) : State := foldl step st events.

(** An event that only concerns students of the roster [data]: the buttons
    of the page toggle enrolled students; a photo is within the roster when a
    successful response names an enrolled student. *)
Definition within_roster (data : list Student) (e : Event) : Prop :=
  match e with
  | Toggle studentId _ => studentId ∈ user_id <$> data
  | Photo _ true (Responded true result) =>
      success result = true →
      ∃ studentId, fr_student_id result = Some studentId ∧
                   studentId ∈ user_id <$> data
  | Photo _ _ _ => True
  end.

(** What the roster fixes: the students, the keys of the map, and that
    every entry carries its key as [student_id]. *)
Definition roster_invariant (data : list Student) (st : State) : Prop :=
  students st = data ∧
  dom (attendance st) = list_to_set (user_id <$> data) ∧
  (∀ k r, attendance st !! k = Some r → student_id r = Some k).

End Page.

(** ** The tie-break rule of the resolver *)

Module Assignment.
Import Engine.

(** Modelled from the spec: two candidates compete when they are for the
    same face or for the same identity (section 4.5: each identity is
    credited to at most one face, each face to at most one identity). *)
Definition competes (m c : MatchCandidate) : Prop :=
  face_index m = face_index c ∨ identity_id m = identity_id c.

(** Modelled from the spec: the precedence of section 4.5 in the spec's own
    terms: the higher score first; on an exact tie of the scores the lower
    [face_index]; on the same face the identity that comes first in the order
    of the identities.  The resolver that applies it is missing from the
    sources. *)
Definition precedes (m c : MatchCandidate) : Prop :=
  Qclt (similarity_score c) (similarity_score m) ∨
  (similarity_score m = similarity_score c ∧
   ((face_index m < face_index c)%nat ∨
    (face_index m = face_index c ∧
     String.leb (identity_id m) (identity_id c) = true))).

#[global] Instance precedes_dec m c : Decision (precedes m c).
Proof. unfold precedes. apply _. Defined.

(** Modelled from the spec: what section 4.5 asks of an assignment for the
    candidates [cands]: it is made of candidates, no two of its members
    compete, and a candidate is left out only if a member that competes
    with it precedes it. *)
Definition follows_rule (cands assignment : list MatchCandidate) : Prop :=
  (∀ m, m ∈ assignment → m ∈ cands) ∧
  (∀ a b, a ∈ assignment → b ∈ assignment → competes a b → a = b) ∧
  (∀ c, c ∈ cands → c ∉ assignment →
     ∃ m, m ∈ assignment ∧ competes m c ∧ precedes m c).

(** A measure for the proofs about the rule: the number of candidates of
    [cands] that strictly precede [c]. *)
Definition rank (cands : list MatchCandidate) (c : MatchCandidate) : nat :=
  length (filter (λ x, precedes x c ∧ x ≠ c) cands).

End Assignment.

(** ** Saving, with the enumeration order made explicit *)

Module Enumeration.
Import TakeAttendance.

(** [values] is [Object.values(o)] under some order of the properties of
    [o].  JavaScript enumerates integer-like keys in ascending order and
    then the other keys in the order of their insertion; the order of
    [Object_values] is another one. *)
Definition enumerates {A} (values : list A) (o : gmap string A) : Prop :=
  values ≡ₚ Object_values o.

(** [saveAttendance], where [values] is what [Object.values(attendance)]
    returned. *)
Definition saveAttendanceOver (values : list AttendanceRecord)
    (classId today : string) (fetch_ok : ManualBody → bool) (st : State)
    : State * list Request * string :=
  let attendanceRecords := filter (λ record, status record = present) values in
  let '(reqs, done) :=
    postAll fetch_ok (manualBody classId today <$> attendanceRecords) in
  (setSaving false (setSaving true st), reqs,
   if done then "Attendance saved successfully!" else "Error saving attendance").

End Enumeration.

(** ** Statements that insert several rows *)

Module MultiRow.
Import Schema.

(** [INSERT INTO attendance (...) VALUES (...), (...), ...]: the rows are
    inserted in turn and the statement is atomic, so the first row that
    violates a constraint makes the whole statement fail. *)
Fixpoint insert_rows (allowed : list string) (rows : list attendance_row)
    (t : table) : sql_error + table :=
  match rows with
  | [] => inr t
  | r :: rows' =>
      match insert allowed r t with
      | inl e => inl e
      | inr t' => insert_rows allowed rows' t'
      end
  end.

(** [INSERT ... VALUES (...), (...), ... ON CONFLICT (student_id, subject_id,
    date) DO NOTHING], the form of the sample data of the migration: a row
    whose key is taken, by the table or by an earlier row of the statement,
    is skipped; any other violation makes the whole statement fail. *)
Fixpoint insert_rows_do_nothing (allowed : list string)
    (rows : list attendance_row) (t : table) : sql_error + table :=
  match rows with
  | [] => inr t
  | r :: rows' =>
      match insert_do_nothing allowed r t with
      | inl e => inl e
      | inr t' => insert_rows_do_nothing allowed rows' t'
      end
  end.

(** The table after a statement: a statement that fails leaves it as it
    was. *)
Definition table_after (result : sql_error + table) (t : table) : table :=
  match result with
  | inr t' => t'
  | inl _ => t
  end.

End MultiRow.

(** ** More concrete inputs *)

Module MoreInputs.

(** Two marks for the same identity and date whose class is [NULL]. *)
Definition first_null_mark : Schema.attendance_row :=
  {| Schema.id := "row-1"; Schema.subject_id := None;
     Schema.student_id := Some "A"; Schema.date := "2024-09-02";
     Schema.status := "present"; Schema.marked_by := None;
     Schema.confidence_score := None; Schema.method := None;
     Schema.created_at := "2024-09-02T09:00:00" |}.
Definition second_null_mark : Schema.attendance_row :=
  {| Schema.id := "row-2"; Schema.subject_id := None;
     Schema.student_id := Some "A"; Schema.date := "2024-09-02";
     Schema.status := "present"; Schema.marked_by := None;
     Schema.confidence_score := None; Schema.method := None;
     Schema.created_at := "2024-09-02T09:00:00" |}.

(** A mark for another identity of the same class and date. *)
Definition third_mark : Schema.attendance_row :=
  {| Schema.id := "row-3"; Schema.subject_id := Some "c1";
     Schema.student_id := Some "B"; Schema.date := "2024-09-02";
     Schema.status := "present"; Schema.marked_by := Some "T";
     Schema.confidence_score := None;
     Schema.method := Some "manual";
     Schema.created_at := "2024-09-02T09:10:00" |}.

(** The page after the roster [bob; alice] was fetched, in this order, and
    both were marked present by hand. *)
Definition bob_then_alice : TakeAttendance.State :=
  TakeAttendance.setAttendance
    (TakeAttendance.markAttendance "A" TakeAttendance.present)
    (TakeAttendance.setAttendance
       (TakeAttendance.markAttendance "B" TakeAttendance.present)
       (TakeAttendance.fetchStudents (Some (true, [Inputs.bob; Inputs.alice]))
          TakeAttendance.initialState)).

(** The records of [bob_then_alice] in the order of insertion of their
    keys: [bob]'s first. *)
Definition bob_then_alice_values : list TakeAttendance.AttendanceRecord :=
  [ {| TakeAttendance.student_id := Some "B";
       TakeAttendance.status := TakeAttendance.present;
       TakeAttendance.method := TakeAttendance.manual;
       TakeAttendance.confidence_score := None |};
    {| TakeAttendance.student_id := Some "A";
       TakeAttendance.status := TakeAttendance.present;
       TakeAttendance.method := TakeAttendance.manual;
       TakeAttendance.confidence_score := None |} ].

(** Requests for [alice] throw, the others go through. *)
Definition alice_fails (b : TakeAttendance.ManualBody) : bool :=
  negb (bool_decide (TakeAttendance.mb_student_id b = Some "A")).
End MoreInputs.

(** ** The code generators of the classroom schema *)

Module Codes.
Import Stdlib.Strings.Ascii.

(** PostgreSQL's [substr(string, start, count)]: the characters at the
    positions [start], ..., [start + count - 1] that exist, positions being
    counted from 1. *)
Definition substr (s : string) (start count : Z) : string :=
  let first := Z.max start 1 in
  let stop := start + count in
  if stop <=? first then ""%string
  else String.substring (Z.to_nat (first - 1)) (Z.to_nat (stop - first)) s.

(** PostgreSQL's [lpad(string, length, fill)] for a one-character [fill]: a
    string that is too long is cut on the right. *)
Fixpoint prepend (n : nat) (fill : ascii) (s : string) : string :=
  match n with
  | O => s
  | S n' => String fill (prepend n' fill s)
  end.

Definition lpad (s : string) (len : nat) (fill : ascii) : string :=
  if (len <=? String.length s)%nat then String.substring 0 len s
  else prepend (len - String.length s) fill s.

(** The cast [::text] of a [bigint]. *)
Definition bigint_text (n : Z) : string := NilZero.string_of_int (Z.to_int n).

(** [chars] of [generate_invite_code]. *)
Definition chars : string := "ABCDEFGHIJKLMNOPQRSTUVWXYZ0123456789".

(** [floor(random() * length(chars) + 1)::integer] for the value [r] of
    [random()]. *)
Definition random_position (r : Qc) : Z :=
  Qfloor (this r * inject_Z (Z.of_nat (String.length chars)) + 1).

(** The [FOR i IN 1..8 LOOP] of [generate_invite_code]: [random call] is the
    value of the [call]-th evaluation of [random()] in the session. *)
Fixpoint invite_loop (random : nat → Qc) (call : nat) (rounds : nat)
    (result : string) : string :=
  match rounds with
  | O => result
  | S rounds' =>
      invite_loop random (S call) rounds'
        (result +:+ substr chars (random_position (random call)) 1)%string
  end.

(** [generate_invite_code()]: the code and the number of evaluations of
    [random()] so far. *)
Definition generate_invite_code (random : nat → Qc) (call : nat) : string * nat :=
  (invite_loop random call 8 "", (call + 8)%nat).

(** [nextval('subject_code_seq')] for a sequence whose next value is
    [next]: the value and the advanced sequence. *)
Definition nextval (next : Z) : Z * Z := (next, next + 1).

(** [generate_subject_code()]. *)
Definition generate_subject_code (next : Z) : string * Z :=
  let '(n, next') := nextval next in
  (("SUB" +:+ lpad (bigint_text n) 6 "0"%char)%string, next').

(** The columns of [NEW] that [set_subject_codes] reads and writes, and the
    remaining columns of [subjects]. *)
Record subject := {
  subject_id : string;
  subject_code : option string;
  name : string;
  description : option string;
  teacher_id : option string;
  invite_code : option string;
  is_active : option bool
}.

(** The [LOOP ... EXIT WHEN NOT EXISTS (...)] of [set_subject_codes]:
    [existing] are the invite codes of the rows of [subjects].  The loop
    has no bound; [None] means that it is still running after [fuel]
    rounds. *)
Fixpoint invite_retry (fuel : nat) (random : nat → Qc) (call : nat)
    (existing : list string) : option (string * nat) :=
  match fuel with
  | O => None
  | S fuel' =>
      let '(code, call') := generate_invite_code random call in
      if bool_decide (code ∈ existing)
      then invite_retry fuel' random call' existing
      else Some (code, call')
  end.

(** The state that the trigger threads: the sequence and the evaluations
    of [random()]. *)
Record session := {
  next_subject_code : Z;
  random_calls : nat
}.

(** [set_subject_codes()], the [BEFORE INSERT] trigger of [subjects]. *)
Definition set_subject_codes (fuel : nat) (random : nat → Qc)
    (existing : list string) (NEW : subject) (s : session)
    : option (subject * session) :=
  let '(code, next') :=
    match subject_code NEW with
    | None => let '(c, next') := generate_subject_code (next_subject_code s) in
              (Some c, next')
    | Some c => (Some c, next_subject_code s)
    end in
  let invite :=
    match invite_code NEW with
    | None =>
        match invite_retry fuel random (random_calls s) existing with
        | Some (v, calls') => Some (Some v, calls')
        | None => None
        end
    | Some v => Some (Some v, random_calls s)
    end in
  match invite with
  | Some (v, calls') =>
      Some ({| subject_id := subject_id NEW; subject_code := code;
               name := name NEW; description := description NEW;
               teacher_id := teacher_id NEW; invite_code := v;
               is_active := is_active NEW |},
            {| next_subject_code := next'; random_calls := calls' |})
  | None => None
  end.

(** Reading a padded number back: the leading zeros do not count. *)
Definition decimal_value (s : string) : option N :=
  N.of_uint <$> NilEmpty.uint_of_string s.

End Codes.

(** ** The attendance dashboard *)

Module Dashboard.
Import TakeAttendance.

(** [interface AttendanceRecord] of the dashboard. *)
Record Record_ := {
  id : string;
  student_id : string;
  student_name : string;
  date : string;
  status : Status;
  method : Method;
  confidence_score : option Qc;
  created_at : string
}.


(** [attendance_rate]: the constant 0, or the floating-point value of
    [(present / (total_students * total_sessions)) * 100], kept here as the
    two operands of the division. *)
Inductive Rate :=
| RateZero
| RatePercent (present denominator : Z).

(** [interface AttendanceStats]. *)
Record AttendanceStats := {
  s_total_students : Z;
  s_total_sessions : Z;
  present_today : Z;
  absent_today : Z;
  attendance_rate : Rate
}.

Record State := {
  stats : option AttendanceStats;
  attendanceRecords : list Record_;
  selectedDate : string
}.




End Dashboard.

(** ** The attendance screen of the mobile app *)

Module AttendanceScreen.

Record State := {
  capturedImage : option string;
  processing : bool;
  showSubjectModal : bool;
  selectedSubject : string
}.

(** A string is truthy when it is not empty; [null] is falsy. *)
Definition truthy (s : option string) : bool :=
  match s with
  | Some s => negb (bool_decide (s = ""))
  | None => false
  end.

Inductive Alert :=
| Success (students_marked_present : nat)
| Error (text : string).

(** What the request of [processAttendance] does: it throws, or it yields
    [response.ok] and, for an [ok] response, what [response.json()] gives:
    [None] when parsing throws, otherwise the length of
    [students_marked_present] if the field is there. *)
Inductive Outcome :=
| Threw
| Responded (ok : bool) (result : option (option nat)).

(** The form fields of the request. *)
Record Upload := {
  file_uri : string;
  subject_id : string;
  faculty_id : string
}.

(** [takePicture]: [camera] is [None] when [cameraRef.current] is not set,
    otherwise what [takePictureAsync] gives ([None] when it throws). *)
Definition takePicture (camera : option (option string)) (st : State)
    : State * option Alert :=
  if negb (truthy (Some (selectedSubject st)))
  then ({| capturedImage := capturedImage st; processing := processing st;
           showSubjectModal := true; selectedSubject := selectedSubject st |},
        None)
  else
    match camera with
    | None => (st, None)
    | Some (Some uri) =>
        ({| capturedImage := Some uri; processing := processing st;
            showSubjectModal := showSubjectModal st;
            selectedSubject := selectedSubject st |}, None)
    | Some None => (st, Some (Error "Failed to take picture"))
    end.

(** [processAttendance]: the new state, the uploads sent and the alert. *)
Definition processAttendance (o : Outcome) (st : State)
    : State * list Upload * option Alert :=
  if negb (truthy (capturedImage st)) || negb (truthy (Some (selectedSubject st)))
  then (st, [], None)
  else
    let upload :=
      {| file_uri := default "" (capturedImage st);
         subject_id := selectedSubject st; faculty_id := "FAC001" |} in
    let failed :=
      ({| capturedImage := capturedImage st; processing := false;
          showSubjectModal := showSubjectModal st;
          selectedSubject := selectedSubject st |},
       [upload],
       Some (Error "Failed to process attendance. Please try again.")) in
    match o with
    | Responded true (Some count) =>
        ({| capturedImage := None; processing := false;
            showSubjectModal := showSubjectModal st;
            selectedSubject := selectedSubject st |},
         [upload], Some (Success (default 0%nat count)))
    | _ => failed
    end.

(** [retakePicture]. *)
Definition retakePicture (st : State) : State :=
  {| capturedImage := None; processing := processing st;
     showSubjectModal := showSubjectModal st;
     selectedSubject := selectedSubject st |}.

End AttendanceScreen.

(** ** Face registration on the profile page *)

Module Profile.

Record State := {
  uploading : bool;
  message : string
}.

(** What the request to [/api/auth/register-face] does: it throws, or it
    yields [response.ok] and, for a response that is not [ok], what
    [response.json()] gives: [None] when parsing throws, otherwise the
    [detail] field if it is there. *)
Inductive Outcome :=
| Threw
| Responded (ok : bool) (errorData : option (option string)).

(** [a || b] on strings: [undefined] and the empty string are falsy. *)
Definition or_else (a : option string) (b : string) : string :=
  match a with
  | Some s => if bool_decide (s = "") then b else s
  | None => b
  end.

(** [handleFaceRegistration]. *)
Definition handleFaceRegistration (hasFile : bool) (o : Outcome) (st : State)
    : State :=
  if negb hasFile then st
  else
    {| uploading := false;
       message :=
         match o with
         | Responded true _ => "Face registered successfully!"
         | Responded false (Some errorData) =>
             or_else errorData "Failed to register face"
         | Responded false None => "Network error. Please try again."
         | Threw => "Network error. Please try again."
         end |}.

(** [s.includes(sub)]. *)
Fixpoint includes (sub s : string) : bool :=
  String.prefix sub s ||
  match s with
  | EmptyString => false
  | String _ s' => includes sub s'
  end.

Inductive Banner := NoBanner | Green | Red.

(** The banner under the form: [message && (message.includes('successfully')
    ? green : red)]. *)
Definition banner (st : State) : Banner :=
  if bool_decide (message st = "") then NoBanner
  else if includes "successfully" (message st) then Green else Red.

End Profile.

(** * Theorems *)

(** ** Facts about scores *)

Lemma Qcleb_le (x y : Qc) : Qcleb x y = true ↔ Qcle x y.
Proof. unfold Qcleb, Qcle. apply Qle_bool_iff. Qed.

Lemma Qcltb_lt (x y : Qc) : Qcltb x y = true ↔ Qclt x y.
Proof.
  unfold Qcltb. rewrite negb_true_iff, <- not_true_iff_false, Qcleb_le.
  split; [apply Qcnot_le_lt | apply Qclt_not_le].
Qed.

Lemma Qcltb_false (x y : Qc) : Qcltb x y = false ↔ Qcle y x.
Proof. unfold Qcltb. rewrite negb_false_iff. apply Qcleb_le. Qed.

Lemma Qclt_irreflexive (x : Qc) : ¬ Qclt x x.
Proof. intros Hlt. by apply Qclt_not_eq in Hlt. Qed.

(** ** The "Take Attendance" page *)

Section page.
Import TakeAttendance.

Lemma Object_values_elem (m : gmap string AttendanceRecord) r :
  r ∈ Object_values m ↔ ∃ k, m !! k = Some r.
Proof.
  unfold Object_values. rewrite list_elem_of_fmap. split.
  - intros [[k r'] [-> Hin]]. exists k. by apply elem_of_map_to_list.
  - intros [k Hk]. exists (k, r). split; [done|]. by apply elem_of_map_to_list.
Qed.

Lemma Object_values_length (m : gmap string AttendanceRecord) :
  length (Object_values m) = size m.
Proof. unfold Object_values. by rewrite length_fmap, length_map_to_list. Qed.

(** Every record has exactly one of the three statuses. *)
Lemma status_partition (l : list AttendanceRecord) :
  length l =
    (length (filter (λ a, status a = present) l)
     + length (filter (λ a, status a = absent) l)
     + length (filter (λ a, status a = late) l))%nat.
Proof.
  induction l as [|a l IH]; [done|].
  rewrite !filter_cons. destruct (status a); simpl;
    repeat case_decide; try done; simpl; lia.
Qed.

Lemma initialAttendance_lookup (data : list Student)
    (acc : gmap string AttendanceRecord) k :
  foldl (λ acc student,
           <[user_id student :=
               {| student_id := Some (user_id student); status := absent;
                  method := manual; confidence_score := None |}]> acc)
        acc data !! k
  = if decide (k ∈ user_id <$> data)
    then Some {| student_id := Some k; status := absent;
                 method := manual; confidence_score := None |}
    else acc !! k.
Proof.
  revert acc. induction data as [|s data IH]; intros acc; simpl.
  - done.
  - rewrite IH. destruct (decide (k ∈ user_id <$> data)) as [Hin|Hin].
    + rewrite decide_True; [done|]. by apply list_elem_of_further.
    + destruct (decide (user_id s = k)) as [<-|Hne].
      * rewrite lookup_insert_eq, decide_True; [done|]. apply list_elem_of_here.
      * rewrite lookup_insert_ne by done.
        rewrite decide_False; [done|].
        rewrite elem_of_cons. intros [Heq|?]; [congruence|done].
Qed.

Lemma postAll_all_ok fetch_ok bodies :
  (∀ b, fetch_ok b = true) →
  postAll fetch_ok bodies = (PostManual <$> bodies, true).
Proof.
  intros Hok. induction bodies as [|b bodies IH]; [done|].
  simpl. by rewrite Hok, IH.
Qed.


(** C9.  [markAttendance] changes the entry of the given student only:
    every other entry of the map is as before, and the changed entry has
    the requested status, method [manual], and the [student_id] and
    [confidence_score] that the previous entry had (so a score written by
    face recognition survives a manual toggle). *)
Theorem markAttendance_frame (studentId : string) (s : Status)
    (prev : gmap string AttendanceRecord) :
  (∀ other, other ≠ studentId →
     markAttendance studentId s prev !! other = prev !! other) ∧
  (∃ r, markAttendance studentId s prev !! studentId = Some r ∧
        status r = s ∧ method r = manual ∧
        student_id r = prev !! studentId ≫= student_id ∧
        confidence_score r = prev !! studentId ≫= confidence_score) ∧
  (∀ old, prev !! studentId = Some old →
     confidence_score <$> markAttendance studentId s prev !! studentId
     = Some (confidence_score old)).
Proof.
  unfold markAttendance. split; [|split].
  - intros other Hne. by rewrite lookup_insert_ne.
  - eexists. rewrite lookup_insert_eq. by repeat split.
  - intros old Hold. by rewrite lookup_insert_eq, Hold.
Qed.

Lemma markAttendance_frame_witness :
  markAttendance "A" absent (attendance Inputs.marked_state) !! "B"
    = attendance Inputs.marked_state !! "B" ∧
  confidence_score
    <$> markAttendance "B" late (attendance Inputs.marked_state) !! "B"
    = Some (Some (score 65 100)).
Proof.
  destruct (markAttendance_frame "A" absent (attendance Inputs.marked_state))
    as (Hother & _ & _).
  destruct (markAttendance_frame "B" late (attendance Inputs.marked_state))
    as (_ & _ & Hkeep).
  split.
  - apply Hother. discriminate.
  - apply (Hkeep {| student_id := Some "B"; status := present;
                    method := face_recognition;
                    confidence_score := Some (score 65 100) |}).
    vm_compute. reflexivity.
Defined.

(** C10.  The displayed counts add up to the number of enrolled students,
    because [absentCount] is the total minus [presentCount]; the entries
    marked [late] are therefore counted, one each, in [absentCount] (with
    the entries marked [absent] and the students that have no entry). *)
Theorem counts_add_up (students : list Student)
    (attendance : gmap string AttendanceRecord) :
  presentCount attendance + absentCount students attendance
    = Z.of_nat (length students) ∧
  absentCount students attendance
    = (Z.of_nat (length students) - Z.of_nat (size attendance))
      + statusCount absent attendance + statusCount late attendance.
Proof.
  unfold absentCount, presentCount, statusCount. split; [lia|].
  rewrite <- Object_values_length.
  rewrite (status_partition (Object_values attendance)). lia.
Qed.

(** In the roster state with [alice] marked late and [bob] recognized,
    the page shows one present and one absent. *)
Example counts_with_late :
  presentCount (attendance Inputs.marked_state) = 1 ∧
  absentCount (students Inputs.marked_state)
              (attendance Inputs.marked_state) = 1 ∧
  status <$> attendance Inputs.marked_state !! "A" = Some late.
Proof. vm_compute. done. Qed.




(** C1, at the failing input.  After a successful response that lists both
    [alice] and [bob] in [recognized_students], the handler has marked the
    identity named by the top-level [student_id] only: [bob] is still
    absent, with method [manual] and no confidence score. *)
Theorem handleFaceRecognition_marks_one :
  let st' := (handleFaceRecognition "c1" true
                (Responded true Inputs.both_recognized)
                Inputs.roster_state).1 in
  attendance st' !! "A"
    = Some {| student_id := Some "A"; status := present;
              method := face_recognition;
              confidence_score := Some (score 82 100) |} ∧
  attendance st' !! "B"
    = Some {| student_id := Some "B"; status := absent;
              method := manual; confidence_score := None |} ∧
  ¬ Statements.all_recognized_marked Inputs.both_recognized (attendance st').
Proof.
  intros st'.
  assert (attendance st' !! "A"
    = Some {| student_id := Some "A"; status := present;
              method := face_recognition;
              confidence_score := Some (score 82 100) |}) as HA
    by (vm_compute; reflexivity).
  assert (attendance st' !! "B"
    = Some {| student_id := Some "B"; status := absent;
              method := manual; confidence_score := None |}) as HB
    by (vm_compute; reflexivity).
  clearbody st'. split; [exact HA|]. split; [exact HB|].
  intros Hall.
  destruct (Hall {| rs_student_id := "B"; rs_face_index := 1;
                    rs_similarity_score := score 65 100 |})
    as (r & Hr & Hpresent & _).
  { simpl. apply list_elem_of_further, list_elem_of_here. }
  simpl in Hr. rewrite HB in Hr. by simplify_eq.
Qed.

(** C4, as stated, fails: with the roster fetched and nobody marked,
    [alice] is enrolled and not present, and saving issues no request at
    all, so no record with status absent is persisted for her. *)
Lemma absent_not_persisted :
  ¬ Statements.absent_persisted "c1" "2024-09-02" Inputs.always_ok
      Inputs.roster_state.
Proof.
  intros Hclaim.
  assert ((saveAttendance "c1" "2024-09-02" Inputs.always_ok
             Inputs.roster_state).1.2 = []) as Hnone
    by (vm_compute; reflexivity).
  destruct (Hclaim Inputs.alice) as (b & Hin & _).
  - apply list_elem_of_here.
  - vm_compute. discriminate.
  - rewrite Hnone in Hin. by apply elem_of_nil in Hin.
Qed.

(** C4, amended.  Fetching the roster gives every enrolled identity an
    in-memory entry with status absent, method [manual] and no confidence
    score.  Saving issues requests for entries whose status is present
    only; when no request fails it issues one for each such entry, and so
    none for an identity left absent. *)
Theorem saveAttendance_posts_present (classId today : string)
    (fetch_ok : ManualBody → bool) (data : list Student) (st0 st : State) :
  (∀ b, fetch_ok b = true) →
  (∀ s, s ∈ data →
     attendance (fetchStudents (Some (true, data)) st0) !! user_id s
     = Some {| student_id := Some (user_id s); status := absent;
               method := manual; confidence_score := None |}) ∧
  (∀ b, PostManual b ∈ (saveAttendance classId today fetch_ok st).1.2 ↔
        ∃ k r, attendance st !! k = Some r ∧ status r = present ∧
               b = manualBody classId today r) ∧
  (∀ b, PostManual b ∈ (saveAttendance classId today fetch_ok st).1.2 →
        mb_status b = present) ∧
  Z.of_nat (length (saveAttendance classId today fetch_ok st).1.2)
    = presentCount (attendance st).
Proof.
  intros Hok.
  assert ((saveAttendance classId today fetch_ok st).1.2
          = PostManual <$> (manualBody classId today
                              <$> attendanceRecords (attendance st))) as Hreqs.
  { unfold saveAttendance. by rewrite (postAll_all_ok _ _ Hok). }
  assert (∀ b, PostManual b ∈ (saveAttendance classId today fetch_ok st).1.2 ↔
        ∃ k r, attendance st !! k = Some r ∧ status r = present ∧
               b = manualBody classId today r) as Hiff.
  { intros b. rewrite Hreqs. unfold attendanceRecords. split.
    - intros (b' & [= <-] & (r & -> & Hr)%list_elem_of_fmap)%list_elem_of_fmap.
      apply list_elem_of_filter in Hr as [Hp (k & Hk)%Object_values_elem].
      by exists k, r.
    - intros (k & r & Hk & Hp & ->).
      apply list_elem_of_fmap_2, list_elem_of_fmap_2, list_elem_of_filter.
      split; [done|]. apply Object_values_elem. by exists k. }
  split; [|split; [exact Hiff|split]].
  - intros s Hs. simpl. unfold initialAttendance.
    rewrite initialAttendance_lookup, decide_True; [done|].
    by apply list_elem_of_fmap_2.
  - intros b (k & r & _ & Hp & ->)%Hiff. done.
  - rewrite Hreqs, !length_fmap. done.
Qed.

Lemma saveAttendance_posts_present_witness :
  (saveAttendance "c1" "2024-09-02" Inputs.always_ok
     Inputs.marked_state).1.2
  = [PostManual {| mb_student_id := Some "B"; mb_subject_id := "c1";
                   mb_date := "2024-09-02"; mb_status := present |}] ∧
  Z.of_nat (length (saveAttendance "c1" "2024-09-02" Inputs.always_ok
                      Inputs.marked_state).1.2)
  = presentCount (attendance Inputs.marked_state).
Proof.
  split; [vm_compute; reflexivity|].
  apply (saveAttendance_posts_present "c1" "2024-09-02" Inputs.always_ok
           [Inputs.alice; Inputs.bob] initialState Inputs.marked_state).
  intros b. reflexivity.
Defined.
End page.

(** ** [compare_faces] *)

Section face_service.
Import FaceService.

Lemma similarity_lt (d t : Qc) : Qclt d t ↔ Qclt (similarity t) (similarity d).
Proof.
  unfold similarity. rewrite (Qclt_minus_iff d t).
  rewrite (Qclt_minus_iff (Q2Qc 1 - t) (Q2Qc 1 - d)).
  replace (Q2Qc 1 - d + - (Q2Qc 1 - t))%Qc with (t + - d)%Qc by ring.
  done.
Qed.

(** C5, as stated, fails on [compare_faces]: a known encoding at distance
    0.5 (similarity 0.5) is reported as a match under the threshold 0.6,
    although its score is below 0.6. *)
Lemma threshold_cuts_distance :
  ¬ Statements.kept_iff_score_ge similarity (λ _ _, [score 1 2]) (score 6 10).
Proof.
  intros Hclaim.
  destruct (Hclaim 0%nat (score 1 2) eq_refl) as [Hge _].
  apply Qcleb_le in Hge; [|by vm_compute].
  vm_compute in Hge. discriminate.
Qed.

(** The same input refutes the reading in which the score is the number
    that the code compares with the threshold. *)
Example raw_score_reading_fails :
  ¬ Statements.kept_iff_score_ge (λ d, d) (λ _ _, [score 1 2]) (score 6 10).
Proof.
  intros Hclaim.
  destruct (Hclaim 0%nat (score 1 2) eq_refl) as [Hge _].
  apply Qcleb_le in Hge; [|by vm_compute].
  vm_compute in Hge. discriminate.
Qed.

(** C5, amended.  [compare_faces] answers for every known encoding, and an
    encoding is a match if and only if its distance is strictly below the
    threshold, that is, its similarity [1 - distance] is strictly above
    [1 - threshold].  The threshold is the argument of the call and is 0.6
    when the argument is left out. *)
Theorem compare_faces_below_threshold (encoding : Type)
    (face_distance : list encoding → encoding → list Qc)
    (known_encodings : list encoding) (face_encoding : encoding)
    (threshold : option Qc) (i : nat) (d : Qc) :
  face_distance known_encodings face_encoding !! i = Some d →
  let t := default (score 6 10) threshold in
  let matches :=
    compare_faces encoding face_distance known_encodings face_encoding threshold in
  length matches = length (face_distance known_encodings face_encoding) ∧
  (matches !! i = Some true ↔ Qclt d t) ∧
  (matches !! i = Some true ↔ Qclt (similarity t) (similarity d)) ∧
  (matches !! i = Some false ↔ Qcle t d).
Proof.
  intros Hd t matches. subst t matches. unfold compare_faces, default_threshold.
  rewrite length_fmap, list_lookup_fmap, Hd. simpl.
  split; [done|].
  assert (Some (Qcltb d (default (score 6 10) threshold)) = Some true
          ↔ Qclt d (default (score 6 10) threshold)) as Hlt.
  { rewrite <- Qcltb_lt. split; [by intros [= ->]|by intros ->]. }
  split; [exact Hlt|]. split.
  - by rewrite Hlt, similarity_lt.
  - rewrite <- Qcltb_false. split; [by intros [= ->]|by intros ->].
Qed.

Lemma compare_faces_below_threshold_witness :
  compare_faces unit (λ _ _, [score 1 2; score 6 10]) [] () None !! 1%nat
    = Some false ∧
  compare_faces unit (λ _ _, [score 1 2; score 6 10]) [] () None !! 0%nat
    = Some true.
Proof.
  split.
  - apply (compare_faces_below_threshold unit (λ _ _, [score 1 2; score 6 10])
             [] () None 1 (score 6 10) eq_refl).
    apply Qcleb_le. vm_compute. reflexivity.
  - apply (compare_faces_below_threshold unit (λ _ _, [score 1 2; score 6 10])
             [] () None 0 (score 1 2) eq_refl).
    apply Qcltb_lt. vm_compute. reflexivity.
Defined.
End face_service.

(** ** The [attendance] table *)

Section schema.
Import Schema.

Lemma rows_of_app c i d (t1 t2 : table) :
  rows_of c i d (t1 ++ t2) = rows_of c i d t1 ++ rows_of c i d t2.
Proof. unfold rows_of. apply filter_app. Qed.

Lemma rows_of_elem c i d (t : table) r :
  r ∈ rows_of c i d t ↔
  (subject_id r = Some c ∧ student_id r = Some i ∧ date r = d) ∧ r ∈ t.
Proof. unfold rows_of. by rewrite list_elem_of_filter. Qed.

Lemma unique_conflict_true (r : attendance_row) (t : table) c i d :
  subject_id r = Some c → student_id r = Some i → date r = d →
  rows_of c i d t ≠ [] → unique_conflict r t = true.
Proof.
  intros Hc Hi Hd Hrows. unfold unique_conflict. apply bool_decide_eq_true.
  destruct (rows_of c i d t) as [|r' rows] eqn:Heq; [done|].
  assert (r' ∈ rows_of c i d t) as Hin by (rewrite Heq; apply list_elem_of_here).
  apply rows_of_elem in Hin as [(Hc' & Hi' & Hd') Hin].
  apply Exists_exists. exists r'. split; [done|].
  unfold same_key. rewrite Hc, Hi. repeat split; congruence.
Qed.

Lemma unique_conflict_false (r : attendance_row) (t : table) c i d :
  subject_id r = Some c → student_id r = Some i → date r = d →
  unique_conflict r t = false → rows_of c i d t = [].
Proof.
  intros Hc Hi Hd Hfree.
  destruct (rows_of c i d t) as [|r' rows] eqn:Heq; [done|].
  rewrite (unique_conflict_true r t c i d) in Hfree; [done..|].
  by rewrite Heq.
Qed.

Lemma rows_of_cons c i d (t : table) r :
  rows_of c i d (r :: t)
  = if decide (subject_id r = Some c ∧ student_id r = Some i ∧ date r = d)
    then r :: rows_of c i d t else rows_of c i d t.
Proof. done. Qed.

Lemma key_unique_snoc (r : attendance_row) (t : table) :
  key_unique t → unique_conflict r t = false → key_unique (t ++ [r]).
Proof.
  intros Hinv Hfree c i d. rewrite rows_of_app, length_app.
  rewrite (rows_of_cons c i d [] r).
  case_decide as Hkey; simpl.
  - destruct Hkey as (Hc & Hi & Hd).
    by rewrite (unique_conflict_false r t c i d).
  - specialize (Hinv c i d). lia.
Qed.

Lemma rows_of_filter c i d (P : attendance_row → Prop)
    `{!∀ r, Decision (P r)} (t : table) :
  (length (rows_of c i d (filter P t)) ≤ length (rows_of c i d t))%nat.
Proof.
  induction t as [|r t IH]; [done|].
  rewrite filter_cons, rows_of_cons.
  repeat (case_decide; rewrite ?rows_of_cons; simpl); lia.
Qed.

Lemma exec_key_unique allowed s (t : table) :
  key_unique t → key_unique (exec allowed s t).
Proof.
  intros Hinv. destruct s as [r|r|c|i]; simpl.
  - unfold insert.
    destruct (negb (check_status r && check_method allowed r)); [done|].
    destruct (primary_key_conflict r t); [done|]. simpl.
    destruct (unique_conflict r t) eqn:Hfree; [done|].
    by apply key_unique_snoc.
  - unfold insert_do_nothing.
    destruct (negb (check_status r && check_method allowed r)); [done|].
    destruct (unique_conflict r t) eqn:Hfree; [done|].
    destruct (primary_key_conflict r t); [done|].
    by apply key_unique_snoc.
  - intros c' i' d'. etrans; [apply rows_of_filter|apply Hinv].
  - intros c' i' d'. etrans; [apply rows_of_filter|apply Hinv].
Qed.

Lemma run_key_unique allowed ss (t : table) :
  key_unique t → key_unique (run allowed ss t).
Proof.
  unfold run. revert t. induction ss as [|s ss IH]; intros t Hinv; [done|].
  simpl. apply IH. by apply exec_key_unique.
Qed.

(** C3.  In every table reached from the empty one by inserts and cascading
    deletes there is at most one row for a class, an identity and a date;
    and once a row is there, inserting another one for the same class,
    identity and date leaves the table as it is, with either form of the
    insert. *)
Theorem attendance_key_unique (allowed : list string) (ss : list statement)
    (c i d : string) :
  let t := run allowed ss [] in
  (length (rows_of c i d t) ≤ 1)%nat ∧
  ∀ r, subject_id r = Some c → student_id r = Some i → date r = d →
       rows_of c i d t ≠ [] →
       exec allowed (Insert r) t = t ∧ exec allowed (InsertDoNothing r) t = t.
Proof.
  intros t. split.
  - apply (run_key_unique allowed ss []). intros c' i' d'. simpl. lia.
  - intros r Hc Hi Hd Hmarked.
    pose proof (unique_conflict_true r t c i d Hc Hi Hd Hmarked) as Hconflict.
    simpl. unfold insert, insert_do_nothing. rewrite Hconflict, orb_true_r.
    by destruct (negb (check_status r && check_method allowed r)).
Qed.

Lemma attendance_key_unique_witness :
  exec classroom_methods (Insert Inputs.second_mark)
    (run classroom_methods [Insert Inputs.first_mark] [])
  = run classroom_methods [Insert Inputs.first_mark] [] ∧
  exec classroom_methods (InsertDoNothing Inputs.second_mark)
    (run classroom_methods [Insert Inputs.first_mark] [])
  = run classroom_methods [Insert Inputs.first_mark] [].
Proof.
  apply (attendance_key_unique classroom_methods [Insert Inputs.first_mark]
           "c1" "A" "2024-09-02").
  - reflexivity.
  - reflexivity.
  - reflexivity.
  - vm_compute. discriminate.
Defined.
End schema.

(** ** The order of the identities *)

Lemma string_compare_refl (s : string) : String.compare s s = Eq.
Proof.
  induction s as [|a s IH]; [done|]. simpl.
  unfold Ascii.compare. by rewrite N.compare_refl.
Qed.

Lemma string_compare_lt_trans (s1 s2 s3 : string) :
  String.compare s1 s2 = Lt → String.compare s2 s3 = Lt →
  String.compare s1 s3 = Lt.
Proof.
  revert s2 s3. induction s1 as [|a1 s1 IH]; intros [|a2 s2] [|a3 s3]; simpl;
    try done.
  destruct (Ascii.compare a1 a2) eqn:H12; [| |done].
  - apply Ascii.compare_eq_iff in H12 as ->.
    destruct (Ascii.compare a2 a3); [apply IH|done|done].
  - destruct (Ascii.compare a2 a3) eqn:H23; [| |done].
    + apply Ascii.compare_eq_iff in H23 as <-. by rewrite H12.
    + intros _ _. unfold Ascii.compare in *.
      rewrite N.compare_lt_iff in H12, H23.
      rewrite (proj2 (N.compare_lt_iff _ _)); [done|]. by etrans.
Qed.

Lemma string_leb_lt_eq (s1 s2 : string) :
  String.leb s1 s2 = true ↔ String.compare s1 s2 = Lt ∨ s1 = s2.
Proof.
  unfold String.leb. split.
  - destruct (String.compare s1 s2) eqn:Hc; [|by left|done].
    right. by apply String.compare_eq_iff.
  - intros [-> | ->]; [done|]. by rewrite string_compare_refl.
Qed.

Lemma string_leb_refl (s : string) : String.leb s s = true.
Proof. apply string_leb_lt_eq. by right. Qed.

Lemma string_leb_trans (s1 s2 s3 : string) :
  String.leb s1 s2 = true → String.leb s2 s3 = true → String.leb s1 s3 = true.
Proof.
  rewrite !string_leb_lt_eq. intros [H12 | ->] [H23 | ->]; eauto.
  left. by eapply string_compare_lt_trans.
Qed.

(** ** The resolution order *)

Section order.
Import Engine.

(** The order, spelled out: a higher score comes first; at equal scores the
    lower face index; at equal faces the lower identity. *)
Lemma candidate_le_spec (c1 c2 : MatchCandidate) :
  candidate_le c1 c2 ↔
  Qclt (similarity_score c2) (similarity_score c1) ∨
  (similarity_score c1 = similarity_score c2 ∧
   ((face_index c1 < face_index c2)%nat ∨
    (face_index c1 = face_index c2 ∧
     String.leb (identity_id c1) (identity_id c2) = true))).
Proof.
  unfold candidate_le, candidate_leb.
  destruct (Qcltb (similarity_score c2) (similarity_score c1)) eqn:H21.
  { apply Qcltb_lt in H21. split; [by left|done]. }
  apply Qcltb_false in H21.
  destruct (Qcltb (similarity_score c1) (similarity_score c2)) eqn:H12.
  { apply Qcltb_lt in H12. split; [done|].
    intros [Hlt | [Heq _]].
    - by apply Qclt_not_le in Hlt.
    - rewrite Heq in H12. by apply Qclt_irreflexive in H12. }
  apply Qcltb_false in H12.
  assert (similarity_score c1 = similarity_score c2) as Heq
    by by apply Qcle_antisym.
  assert (¬ Qclt (similarity_score c2) (similarity_score c1)) as Hnlt
    by by apply Qcle_not_lt.
  destruct (face_index c1 <? face_index c2)%nat eqn:Hf12.
  { apply Nat.ltb_lt in Hf12. split; [intros _; right; split; [done|by left]|done]. }
  apply Nat.ltb_ge in Hf12.
  destruct (face_index c2 <? face_index c1)%nat eqn:Hf21.
  { apply Nat.ltb_lt in Hf21. split; [done|].
    intros [?|[_ [?|[? _]]]]; [done|lia|lia]. }
  apply Nat.ltb_ge in Hf21.
  rewrite Is_true_true. split.
  - intros Hid. right. split; [done|]. right. split; [lia|done].
  - intros [?|[_ [?|[_ ?]]]]; [done|lia|done].
Qed.

#[global] Instance candidate_le_total : Total candidate_le.
Proof.
  intros c1 c2. rewrite !candidate_le_spec.
  destruct (Qclt_le_dec (similarity_score c2) (similarity_score c1)) as [?|H12];
    [by left; left|].
  destruct (Qcle_lt_or_eq _ _ H12) as [?|Heq]; [by right; left|].
  destruct (lt_eq_lt_dec (face_index c1) (face_index c2)) as [[?|Hf]|?].
  - left. right. split; [done|by left].
  - destruct (String.leb_total (identity_id c1) (identity_id c2)).
    + left. right. split; [done|]. right. by split.
    + right. right. split; [done|]. right. by split.
  - right. right. split; [done|by left].
Qed.

#[global] Instance candidate_le_trans : Transitive candidate_le.
Proof.
  intros c1 c2 c3. rewrite !candidate_le_spec.
  intros [H21 | [Hs12 H12]] [H32 | [Hs23 H23]].
  - left. by eapply Qclt_trans.
  - left. by rewrite <- Hs23.
  - left. by rewrite Hs12.
  - right. split; [congruence|].
    destruct H12 as [?|[Hf12 Hi12]], H23 as [?|[Hf23 Hi23]].
    + left. lia.
    + left. lia.
    + left. lia.
    + right. split; [congruence|]. by eapply string_leb_trans.
Qed.

#[global] Instance candidate_le_antisymm : AntiSymm (=) candidate_le.
Proof.
  intros c1 c2. rewrite !candidate_le_spec.
  intros [H21 | [Hs12 H12]] [H12' | [Hs21 H21']].
  - exfalso. by eapply Qclt_irreflexive, Qclt_trans.
  - exfalso. rewrite Hs21 in H21. by eapply Qclt_irreflexive.
  - exfalso. rewrite Hs12 in H12'. by eapply Qclt_irreflexive.
  - destruct H12 as [?|[Hf12 Hi12]], H21' as [?|[Hf21 Hi21]]; try lia.
    pose proof (String.leb_antisym _ _ Hi12 Hi21).
    destruct c1, c2; simpl in *. congruence.
Qed.
End order.

(** ** The assignment resolver *)

Section resolver.
Import Engine.

Lemma greedy_elem cf ci (l : list MatchCandidate) m :
  m ∈ greedy cf ci l →
  m ∈ l ∧ (face_index m ∉ cf) ∧ (identity_id m ∉ ci).
Proof.
  revert cf ci. induction l as [|c l IH]; intros cf ci; simpl.
  - by intros ?%elem_of_nil.
  - case_decide as Hfree.
    + intros [->|Hin]%elem_of_cons.
      * split; [apply list_elem_of_here|done].
      * apply IH in Hin as (Hl & Hf & Hi).
        apply not_elem_of_union in Hf as [_ Hf].
        apply not_elem_of_union in Hi as [_ Hi].
        split; [by apply list_elem_of_further|done].
    + intros Hin. apply IH in Hin as (Hl & Hf & Hi).
      split; [by apply list_elem_of_further|done].
Qed.

Lemma greedy_NoDup_faces cf ci (l : list MatchCandidate) :
  NoDup (face_index <$> greedy cf ci l).
Proof.
  revert cf ci. induction l as [|c l IH]; intros cf ci; simpl.
  - constructor.
  - case_decide as Hfree; [|apply IH].
    rewrite fmap_cons. apply NoDup_cons. split; [|apply IH].
    intros (m & Hm & Hin)%list_elem_of_fmap.
    apply greedy_elem in Hin as (_ & Hf & _).
    apply Hf, elem_of_union. left. by apply elem_of_singleton.
Qed.

Lemma greedy_NoDup_identities cf ci (l : list MatchCandidate) :
  NoDup (identity_id <$> greedy cf ci l).
Proof.
  revert cf ci. induction l as [|c l IH]; intros cf ci; simpl.
  - constructor.
  - case_decide as Hfree; [|apply IH].
    rewrite fmap_cons. apply NoDup_cons. split; [|apply IH].
    intros (m & Hm & Hin)%list_elem_of_fmap.
    apply greedy_elem in Hin as (_ & _ & Hi).
    apply Hi, elem_of_union. left. by apply elem_of_singleton.
Qed.

(** A candidate that the greedy pass over a sorted list leaves out lost its
    face or its identity to an accepted candidate that comes no later in the
    order, unless the face or the identity was claimed from the start. *)
Lemma greedy_dominated cf ci (l : list MatchCandidate) c :
  StronglySorted candidate_le l → c ∈ l → c ∉ greedy cf ci l →
  face_index c ∈ cf ∨ identity_id c ∈ ci ∨
  ∃ m, m ∈ greedy cf ci l ∧
       (face_index m = face_index c ∨ identity_id m = identity_id c) ∧
       candidate_le m c.
Proof.
  revert cf ci. induction l as [|x l IH]; intros cf ci Hsorted Hin Hout.
  { by apply elem_of_nil in Hin. }
  apply StronglySorted_cons in Hsorted as [Hx Hsorted].
  simpl in *. case_decide as Hfree.
  - apply not_elem_of_cons in Hout as [Hne Hout].
    apply elem_of_cons in Hin as [?|Hin]; [done|].
    assert (candidate_le x c) as Hxc by by eapply Forall_forall.
    destruct (IH _ _ Hsorted Hin Hout) as [Hf|[Hi|(m & Hm & Hshare & Hle)]].
    + apply elem_of_union in Hf as [->%elem_of_singleton|Hf]; [|by left].
      right; right. exists x. split; [apply list_elem_of_here|]. by split; [left|].
    + apply elem_of_union in Hi as [->%elem_of_singleton|Hi]; [|by right; left].
      right; right. exists x. split; [apply list_elem_of_here|]. by split; [right|].
    + right; right. exists m. split; [by apply list_elem_of_further|done].
  - apply elem_of_cons in Hin as [->|Hin].
    + destruct (decide (face_index x ∈ cf)); [by left|].
      destruct (decide (identity_id x ∈ ci)); [by right; left|].
      by destruct Hfree.
    + by apply IH.
Qed.

Lemma resolve_permutation (l1 l2 : list MatchCandidate) :
  l1 ≡ₚ l2 → resolve l1 = resolve l2.
Proof.
  intros Hperm. unfold resolve. f_equal.
  apply (StronglySorted_unique candidate_le).
  - apply StronglySorted_merge_sort; apply _.
  - apply StronglySorted_merge_sort; apply _.
  - by rewrite !merge_sort_Permutation.
Qed.

(** Two candidates that share a face or an identity: the one that comes
    first in the order is the only one kept, whatever the order in which
    they arrive. *)
Lemma resolve_pair (c1 c2 : MatchCandidate) :
  candidate_le c1 c2 →
  face_index c1 = face_index c2 ∨ identity_id c1 = identity_id c2 →
  resolve [c1; c2] = [c1] ∧ resolve [c2; c1] = [c1].
Proof.
  intros Hle Hshare.
  assert (merge_sort candidate_le [c1; c2] = [c1; c2]) as Hsorted.
  { apply (StronglySorted_unique candidate_le).
    - apply StronglySorted_merge_sort; apply _.
    - repeat constructor. done.
    - apply merge_sort_Permutation. }
  assert (resolve [c1; c2] = [c1]) as Hres.
  { unfold resolve. rewrite Hsorted. simpl.
    rewrite decide_True by (split; apply not_elem_of_empty).
    rewrite decide_False; [done|]. intros [Hf Hi].
    destruct Hshare as [Heq|Heq].
    - apply Hf, elem_of_union. left. by apply elem_of_singleton.
    - apply Hi, elem_of_union. left. by apply elem_of_singleton. }
  split; [done|]. etrans; [|exact Hres].
  apply resolve_permutation, Permutation_swap.
Qed.
End resolver.

(** ** The response of a submission *)

Section response.
Import Engine.

Lemma elem_of_concat {A} (ls : list (list A)) (x : A) :
  x ∈ concat ls ↔ ∃ l, l ∈ ls ∧ x ∈ l.
Proof.
  rewrite list_elem_of_In, in_concat. split.
  - intros (l & Hl & Hx). exists l. by rewrite !list_elem_of_In.
  - intros (l & Hl & Hx). exists l. by rewrite <- !list_elem_of_In.
Qed.

(** The candidates of a submission are the pairs, at or above the
    threshold, that the registry returned for one of its faces. *)
Lemma candidates_elem (threshold : Qc) (queries : list query_result) c :
  c ∈ candidates threshold queries ↔
  ∃ q, queries !! face_index c = Some q ∧
       (identity_id c, similarity_score c) ∈ q ∧
       Qcle threshold (similarity_score c).
Proof.
  unfold candidates. rewrite elem_of_concat. split.
  - intros (l & (i & q & -> & Hq)%elem_of_lookup_imap & Hc).
    unfold matcher in Hc.
    apply list_elem_of_fmap in Hc as ([id s] & -> & Hp).
    apply list_elem_of_filter in Hp as [Hge Hp]. simpl in *.
    exists q. split; [done|]. split; [done|].
    apply Qcleb_le. by apply Is_true_true.
  - intros (q & Hq & Hp & Hge).
    exists (matcher threshold (face_index c) q). split.
    + apply elem_of_lookup_imap. by exists (face_index c), q.
    + unfold matcher. apply list_elem_of_fmap.
      exists (identity_id c, similarity_score c). split; [by destruct c|].
      apply list_elem_of_filter. split; [|done].
      simpl. by apply Is_true_true, Qcleb_le.
Qed.

Lemma filter_split_length {A} (P : A → Prop) `{!∀ x, Decision (P x)}
    (l : list A) :
  (length (filter P l) + length (filter (λ x, ¬ P x) l) = length l)%nat.
Proof.
  induction l as [|x l IH]; [done|].
  rewrite !filter_cons. destruct (decide (P x)).
  - rewrite decide_False by tauto. simpl. lia.
  - rewrite decide_True by done. simpl. lia.
Qed.

Lemma filter_seq_length (fs : list nat) (n : nat) :
  NoDup fs → (∀ f, f ∈ fs → (f < n)%nat) →
  length (filter (λ f, f ∈ fs) (seq 0 n)) = length fs.
Proof.
  intros Hnodup Hlt. apply Permutation_length, NoDup_Permutation.
  - apply NoDup_filter, NoDup_seq.
  - done.
  - intros f. rewrite list_elem_of_filter, elem_of_seq. split; [tauto|].
    intros Hf. split; [done|]. specialize (Hlt f Hf). lia.
Qed.

Lemma resolve_elem (cands : list MatchCandidate) m :
  m ∈ resolve cands → m ∈ cands.
Proof.
  intros (Hm & _)%greedy_elem. by rewrite merge_sort_Permutation in Hm.
Qed.

(** C6.  In the response of a submission the recognized and the
    unrecognized faces add up to the detected faces, whose number is the
    number of faces of the photo (zero included); the result that the page
    builds when the request fails reports zero for all three. *)
Theorem submit_faces_add_up (threshold : Qc) (queries : list query_result) :
  let r := submit threshold queries in
  faces_detected r = length queries ∧
  (faces_recognized r + faces_unrecognized r = faces_detected r)%nat ∧
  faces_recognized r = length (recognized_students r) ∧
  faces_unrecognized r = length (unrecognized_faces r) ∧
  faces_recognized (submit threshold []) = 0%nat ∧
  faces_unrecognized (submit threshold []) = 0%nat ∧
  (TakeAttendance.faces_detected TakeAttendance.networkErrorResult,
   TakeAttendance.faces_recognized TakeAttendance.networkErrorResult,
   TakeAttendance.faces_unrecognized TakeAttendance.networkErrorResult)
  = (Some 0, Some 0, Some 0).
Proof.
  intros r. subst r. unfold submit. simpl.
  split; [done|]. split; [|done].
  set (resolved := resolve (candidates threshold queries)).
  rewrite <- (length_fmap face_index resolved).
  rewrite <- (filter_seq_length (face_index <$> resolved) (length queries)).
  - rewrite filter_split_length. apply length_seq.
  - apply greedy_NoDup_faces.
  - intros f (m & -> & Hm)%list_elem_of_fmap.
    apply resolve_elem, candidates_elem in Hm as (q & Hq & _).
    by eapply lookup_lt_Some.
Qed.

(** C2.  The resolver's output is one-to-one: no identity and no face
    occurs twice in it, it consists of candidates of the submission, and a
    candidate that is left out lost its face or its identity to a kept
    candidate whose score is at least its own.  It is this output that the
    response lists in [recognized_students]. *)
Theorem resolve_one_to_one (threshold : Qc) (queries : list query_result)
    (cands : list MatchCandidate) :
  recognized_students (submit threshold queries)
    = resolve (candidates threshold queries) ∧
  NoDup (identity_id <$> resolve cands) ∧
  NoDup (face_index <$> resolve cands) ∧
  (∀ m, m ∈ resolve cands → m ∈ cands) ∧
  (∀ c, c ∈ cands → c ∉ resolve cands →
     ∃ m, m ∈ resolve cands ∧
          (face_index m = face_index c ∨ identity_id m = identity_id c) ∧
          Qcle (similarity_score c) (similarity_score m)).
Proof.
  split; [done|]. split; [apply greedy_NoDup_identities|].
  split; [apply greedy_NoDup_faces|]. split; [apply resolve_elem|].
  intros c Hc Hout. unfold resolve in *.
  destruct (greedy_dominated ∅ ∅ (merge_sort candidate_le cands) c)
    as [Hf|[Hi|(m & Hm & Hshare & Hle)]].
  - apply StronglySorted_merge_sort; apply _.
  - by rewrite merge_sort_Permutation.
  - done.
  - by apply not_elem_of_empty in Hf.
  - by apply not_elem_of_empty in Hi.
  - exists m. split; [done|]. split; [done|].
    apply candidate_le_spec in Hle as [Hlt|[-> _]].
    + by apply Qclt_le_weak.
    + apply Qcle_refl.
Qed.
End response.

Section determinism.
Import Engine.

Lemma resolve_one_to_one_witness :
  ∃ m, m ∈ resolve [ {| face_index := 0; identity_id := "C";
                        similarity_score := score 75 100 |};
                     {| face_index := 1; identity_id := "C";
                        similarity_score := score 90 100 |} ] ∧
       (face_index m = 0%nat ∨ identity_id m = "C") ∧
       Qcle (score 75 100) (similarity_score m).
Proof.
  pose proof (resolve_one_to_one (score 6 10) []
    [ {| face_index := 0; identity_id := "C"; similarity_score := score 75 100 |};
      {| face_index := 1; identity_id := "C"; similarity_score := score 90 100 |} ])
    as (_ & _ & _ & _ & Hlost).
  apply (Hlost {| face_index := 0; identity_id := "C";
                  similarity_score := score 75 100 |}).
  - apply list_elem_of_here.
  - refine (bool_decide_unpack _ _). vm_compute. exact I.
Defined.

Lemma precedes_candidate_le (m c : MatchCandidate) :
  Assignment.precedes m c ↔ candidate_le m c.
Proof. symmetry. apply candidate_le_spec. Qed.

Lemma NoDup_fmap_eq {A B} (f : A → B) (l : list A) (a b : A) :
  NoDup (f <$> l) → a ∈ l → b ∈ l → f a = f b → a = b.
Proof.
  induction l as [|x l IH]; [by intros _ ?%elem_of_nil|].
  rewrite fmap_cons, NoDup_cons. intros [Hx Hl].
  intros [->|Ha]%elem_of_cons [->|Hb]%elem_of_cons Heq.
  - done.
  - exfalso. apply Hx. rewrite Heq. by apply list_elem_of_fmap_2.
  - exfalso. apply Hx. rewrite <- Heq. by apply list_elem_of_fmap_2.
  - by apply IH.
Qed.

Lemma filter_length_le {A} (P Q : A → Prop) `{!∀ x, Decision (P x)}
    `{!∀ x, Decision (Q x)} (l : list A) :
  (∀ x, P x → Q x) → (length (filter P l) ≤ length (filter Q l))%nat.
Proof.
  intros HPQ. induction l as [|x l IH]; [done|].
  rewrite !filter_cons. destruct (decide (P x)) as [HP|HP].
  - rewrite decide_True by auto. simpl. lia.
  - destruct (decide (Q x)); simpl; lia.
Qed.

Lemma filter_length_lt {A} (P Q : A → Prop) `{!∀ x, Decision (P x)}
    `{!∀ x, Decision (Q x)} (l : list A) (m : A) :
  (∀ x, P x → Q x) → m ∈ l → Q m → ¬ P m →
  (length (filter P l) < length (filter Q l))%nat.
Proof.
  intros HPQ Hm HQ HnP. induction l as [|x l IH]; [by apply elem_of_nil in Hm|].
  rewrite !filter_cons. apply elem_of_cons in Hm as [<-|Hm].
  - rewrite decide_False, decide_True by done. simpl.
    pose proof (filter_length_le P Q l HPQ). lia.
  - specialize (IH Hm). destruct (decide (P x)) as [HP|HP].
    + rewrite decide_True by auto. simpl. lia.
    + destruct (decide (Q x)); simpl; lia.
Qed.

(** A candidate that strictly precedes another has fewer candidates before
    it. *)
Lemma rank_lt (cands : list MatchCandidate) (m c : MatchCandidate) :
  m ∈ cands → Assignment.precedes m c → m ≠ c →
  (Assignment.rank cands m < Assignment.rank cands c)%nat.
Proof.
  intros Hm Hmc Hne. unfold Assignment.rank.
  apply precedes_candidate_le in Hmc.
  apply (filter_length_lt _ _ _ m); [|done|by split; [apply precedes_candidate_le|]|].
  - intros x [Hxm Hxne]. apply precedes_candidate_le in Hxm. split.
    + apply precedes_candidate_le. by etrans.
    + intros ->. apply Hne. by apply (anti_symm candidate_le).
  - by intros [_ ?].
Qed.

Lemma follows_rule_step (cands sel1 sel2 : list MatchCandidate) (c : MatchCandidate) :
  Assignment.follows_rule cands sel1 → Assignment.follows_rule cands sel2 →
  c ∈ cands →
  (∀ m, m ∈ cands →
     (Assignment.rank cands m < Assignment.rank cands c)%nat →
     m ∈ sel2 → m ∈ sel1) →
  c ∈ sel1 → c ∈ sel2.
Proof.
  intros (HsubS & HoneS & _) (HsubR & _ & HdomR) Hc IH HcS.
  destruct (decide (c ∈ sel2)) as [|HcR]; [done|]. exfalso.
  destruct (HdomR c Hc HcR) as (m & HmR & Hcomp & Hprec).
  assert (m ≠ c) as Hne by (by intros ->).
  apply Hne, HoneS; [|done|done].
  apply IH; [by apply HsubR| |done]. by apply rank_lt; [apply HsubR| |].
Qed.

(** Two assignments that follow the rule for the same candidates have the
    same members. *)
Lemma follows_rule_unique (cands sel1 sel2 : list MatchCandidate) :
  Assignment.follows_rule cands sel1 → Assignment.follows_rule cands sel2 →
  ∀ c, c ∈ sel1 ↔ c ∈ sel2.
Proof.
  intros Hsel1 Hsel2.
  assert (∀ n c, c ∈ cands → (Assignment.rank cands c < n)%nat →
            (c ∈ sel1 ↔ c ∈ sel2)) as Hagree.
  { induction n as [|n IH]; [lia|]. intros c Hc Hrank. split.
    - apply (follows_rule_step cands sel1 sel2 c); try done.
      intros m Hm Hlt. apply IH; [done|lia].
    - apply (follows_rule_step cands sel2 sel1 c); try done.
      intros m Hm Hlt. apply IH; [done|lia]. }
  intros c. split; intros Hin.
  - apply (Hagree (S (Assignment.rank cands c)) c); [|lia|done].
    by apply (proj1 Hsel1).
  - apply (Hagree (S (Assignment.rank cands c)) c); [|lia|done].
    by apply (proj1 Hsel2).
Qed.

Lemma resolve_follows_rule (cands : list MatchCandidate) :
  Assignment.follows_rule cands (resolve cands).
Proof.
  split; [apply resolve_elem|]. split.
  - intros a b Ha Hb [Hf|Hi].
    + by apply (NoDup_fmap_eq face_index (resolve cands));
        [apply greedy_NoDup_faces| | |].
    + by apply (NoDup_fmap_eq identity_id (resolve cands));
        [apply greedy_NoDup_identities| | |].
  - intros c Hc Hout. unfold resolve in *.
    destruct (greedy_dominated ∅ ∅ (merge_sort candidate_le cands) c)
      as [Hf|[Hi|(m & Hm & Hshare & Hle)]].
    + apply StronglySorted_merge_sort; apply _.
    + by rewrite merge_sort_Permutation.
    + done.
    + by apply not_elem_of_empty in Hf.
    + by apply not_elem_of_empty in Hi.
    + exists m. split; [done|]. split; [done|]. by apply precedes_candidate_le.
Qed.

(** C8.  The assignment is a function of the candidates and of the rule
    alone.  It does not depend on the order in which the candidates arrive:
    two runs on the same candidates give the same assignment.  For every
    input it follows the rule: it consists of candidates, no two of its
    members are for the same face or the same identity, and a candidate is
    left out only if a kept candidate for the same face or the same identity
    precedes it, that is, has a higher score, or the same score and a lower
    [face_index], or the same score and face and an identity that comes
    first in the order of the identities.  And it is the only assignment
    that follows the rule: any other one has the same members.  In
    particular an exact tie on the score between two faces for one identity
    goes to the lower [face_index], and an exact tie between two identities
    for one face goes to the identity that is first in the order of the
    identities. *)
Theorem resolve_deterministic (l1 l2 : list MatchCandidate) :
  l1 ≡ₚ l2 →
  resolve l1 = resolve l2 ∧
  Assignment.follows_rule l1 (resolve l1) ∧
  (∀ assignment, Assignment.follows_rule l1 assignment →
     ∀ c, c ∈ assignment ↔ c ∈ resolve l1) ∧
  (∀ (f1 f2 : nat) (i : string) (s : Qc), (f1 < f2)%nat →
     let c1 := {| face_index := f1; identity_id := i; similarity_score := s |} in
     let c2 := {| face_index := f2; identity_id := i; similarity_score := s |} in
     resolve [c1; c2] = [c1] ∧ resolve [c2; c1] = [c1]) ∧
  (∀ (f : nat) (i1 i2 : string) (s : Qc), String.leb i1 i2 = true →
     let c1 := {| face_index := f; identity_id := i1; similarity_score := s |} in
     let c2 := {| face_index := f; identity_id := i2; similarity_score := s |} in
     resolve [c1; c2] = [c1] ∧ resolve [c2; c1] = [c1]).
Proof.
  intros Hperm. split; [by apply resolve_permutation|].
  split; [apply resolve_follows_rule|]. split; [|split].
  - intros assignment Hrule.
    apply (follows_rule_unique l1); [done|apply resolve_follows_rule].
  - intros f1 f2 i s Hlt c1 c2. apply resolve_pair; [|by right].
    apply candidate_le_spec. right. split; [done|]. by left.
  - intros f i1 i2 s Hle c1 c2. apply resolve_pair; [|by left].
    apply candidate_le_spec. right. split; [done|]. right. by split.
Qed.

(** Three candidates: two faces tie for the identity C, a third face is
    for D.  Whatever the order of arrival, face 0 gets C, and the candidate
    of face 1 is left out because of a kept candidate that precedes it. *)
Lemma resolve_deterministic_witness :
  resolve [ {| face_index := 1; identity_id := "C";
               similarity_score := score 9 10 |};
            {| face_index := 2; identity_id := "D";
               similarity_score := score 8 10 |};
            {| face_index := 0; identity_id := "C";
               similarity_score := score 9 10 |} ]
  = resolve [ {| face_index := 0; identity_id := "C";
                 similarity_score := score 9 10 |};
              {| face_index := 1; identity_id := "C";
                 similarity_score := score 9 10 |};
              {| face_index := 2; identity_id := "D";
                 similarity_score := score 8 10 |} ] ∧
  (∃ m, m ∈ resolve [ {| face_index := 1; identity_id := "C";
                         similarity_score := score 9 10 |};
                      {| face_index := 2; identity_id := "D";
                         similarity_score := score 8 10 |};
                      {| face_index := 0; identity_id := "C";
                         similarity_score := score 9 10 |} ] ∧
        Assignment.competes m {| face_index := 1; identity_id := "C";
                                 similarity_score := score 9 10 |} ∧
        Assignment.precedes m {| face_index := 1; identity_id := "C";
                                 similarity_score := score 9 10 |}) ∧
  resolve [ {| face_index := 1; identity_id := "C";
               similarity_score := score 9 10 |};
            {| face_index := 0; identity_id := "C";
               similarity_score := score 9 10 |} ]
  = [ {| face_index := 0; identity_id := "C";
         similarity_score := score 9 10 |} ].
Proof.
  destruct (resolve_deterministic
    [ {| face_index := 1; identity_id := "C"; similarity_score := score 9 10 |};
      {| face_index := 2; identity_id := "D"; similarity_score := score 8 10 |};
      {| face_index := 0; identity_id := "C"; similarity_score := score 9 10 |} ]
    [ {| face_index := 0; identity_id := "C"; similarity_score := score 9 10 |};
      {| face_index := 1; identity_id := "C"; similarity_score := score 9 10 |};
      {| face_index := 2; identity_id := "D"; similarity_score := score 8 10 |} ])
    as (Hsame & (_ & _ & Hlost) & _ & Hface & _).
  - etrans; [|apply Permutation_swap]. apply Permutation_skip, Permutation_swap.
  - split; [exact Hsame|]. split.
    + apply Hlost.
      * apply list_elem_of_here.
      * refine (bool_decide_unpack _ _). vm_compute. exact I.
    + apply (Hface 0%nat 1%nat "C"%string (score 9 10)). lia.
Defined.

(** The scenarios of the specification, run on the model. *)
Example scenario_threshold :
  submit (score 6 10)
    [ [("A", score 82 100)]; [("B", score 65 100)]; [("C", score 40 100)] ]
  = {| success := true; faces_detected := 3; faces_recognized := 2;
       faces_unrecognized := 1;
       recognized_students :=
         [ {| face_index := 0; identity_id := "A";
              similarity_score := score 82 100 |};
           {| face_index := 1; identity_id := "B";
              similarity_score := score 65 100 |} ];
       unrecognized_faces := [2%nat] |}.
Proof. vm_compute. reflexivity. Qed.

Example scenario_shared_identity :
  recognized_students
    (submit (score 6 10)
       [ [("C", score 75 100); ("D", score 70 100)]; [("C", score 90 100)] ])
  = [ {| face_index := 1; identity_id := "C"; similarity_score := score 90 100 |};
      {| face_index := 0; identity_id := "D"; similarity_score := score 70 100 |} ].
Proof. vm_compute. reflexivity. Qed.
End determinism.

(** * Further properties of the code *)

(** ** The "Take Attendance" page: marks, photos and counts *)

Section page_more.
Import TakeAttendance.

Lemma Object_values_insert (m : gmap string AttendanceRecord) k r :
  Object_values (<[k := r]> m) ≡ₚ r :: Object_values (delete k m).
Proof.
  unfold Object_values. rewrite <- (insert_delete_eq m k r).
  rewrite map_to_list_insert by apply lookup_delete_eq. done.
Qed.

Lemma Object_values_delete (m : gmap string AttendanceRecord) k r :
  m !! k = Some r → Object_values m ≡ₚ r :: Object_values (delete k m).
Proof.
  intros Hk. rewrite <- (insert_id m k r Hk) at 1. apply Object_values_insert.
Qed.

Lemma count_status_perm (s : Status) (l1 l2 : list AttendanceRecord) :
  l1 ≡ₚ l2 →
  length (filter (λ a, status a = s) l1) = length (filter (λ a, status a = s) l2).
Proof. intros Hperm. by rewrite Hperm. Qed.

Lemma presentCount_insert (m : gmap string AttendanceRecord) k r :
  presentCount (<[k := r]> m)
  = presentCount (delete k m) + (if decide (status r = present) then 1 else 0).
Proof.
  unfold presentCount.
  rewrite (count_status_perm present _ _ (Object_values_insert m k r)).
  rewrite filter_cons. case_decide; simpl; lia.
Qed.

Lemma presentCount_delete (m : gmap string AttendanceRecord) k :
  presentCount m
  = presentCount (delete k m)
    + (if decide (status <$> m !! k = Some present) then 1 else 0).
Proof.
  destruct (m !! k) as [r|] eqn:Hk.
  - unfold presentCount.
    rewrite (count_status_perm present _ _ (Object_values_delete m k r Hk)).
    rewrite filter_cons.
    destruct (decide (status r = present)) as [Hp|Hp];
      destruct (decide (status <$> Some r = Some present)) as [Hq|Hq];
      simpl in *; try lia; congruence.
  - rewrite delete_id by done.
    destruct (decide (status <$> None = Some present)); [done|lia].
Qed.

Lemma presentCount_bounds (m : gmap string AttendanceRecord) :
  0 ≤ presentCount m ≤ Z.of_nat (size m).
Proof.
  unfold presentCount. rewrite <- Object_values_length.
  pose proof (length_filter (λ a, status a = present) (Object_values m)). lia.
Qed.

Lemma filter_none {A} (P : A → Prop) `{!∀ x, Decision (P x)} (l : list A) :
  (∀ x, x ∈ l → ¬ P x) → filter P l = [].
Proof.
  induction l as [|x l IH]; intros Hl; [done|].
  rewrite filter_cons, decide_False by (apply Hl, list_elem_of_here).
  apply IH. intros y Hy. by apply Hl, list_elem_of_further.
Qed.

(** X1.  A successful roster fetch replaces the roster and rebuilds the
    attendance map from scratch: the map has exactly the [user_id]s of the
    roster as keys, every entry is absent, manual, without score and carries
    its own key as [student_id]; the page then shows no one present and
    everyone absent.  A fetch that throws or is not [ok] keeps the roster
    and the map.  In all cases the spinner is switched off. *)
Theorem fetchStudents_initialises (data : list Student) (st0 : State) :
  let st := fetchStudents (Some (true, data)) st0 in
  students st = data ∧
  (∀ k, attendance st !! k
        = if decide (k ∈ user_id <$> data)
          then Some {| student_id := Some k; status := absent;
                       method := manual; confidence_score := None |}
          else None) ∧
  presentCount (attendance st) = 0 ∧
  absentCount (students st) (attendance st) = Z.of_nat (length data) ∧
  loading st = false ∧
  (∀ resp, (resp = None ∨ ∃ data', resp = Some (false, data')) →
     students (fetchStudents resp st0) = students st0 ∧
     attendance (fetchStudents resp st0) = attendance st0 ∧
     loading (fetchStudents resp st0) = false).
Proof.
  intros st. subst st. simpl.
  assert (∀ k, initialAttendance data !! k
        = if decide (k ∈ user_id <$> data)
          then Some {| student_id := Some k; status := absent;
                       method := manual; confidence_score := None |}
          else None) as Hlookup.
  { intros k. unfold initialAttendance. rewrite initialAttendance_lookup.
    case_decide; [done|apply lookup_empty]. }
  assert (presentCount (initialAttendance data) = 0) as Hzero.
  { unfold presentCount. rewrite filter_none; [done|].
    intros r (k & Hk)%Object_values_elem. rewrite Hlookup in Hk.
    case_decide; [|done]. by simplify_eq. }
  split; [done|]. split; [exact Hlookup|]. split; [exact Hzero|].
  split; [unfold absentCount; rewrite Hzero; lia|]. split; [done|].
  intros resp [->|[data' ->]]; done.
Qed.

Lemma fetchStudents_initialises_witness :
  attendance (fetchStudents None Inputs.marked_state)
  = attendance Inputs.marked_state.
Proof.
  pose proof (fetchStudents_initialises [] Inputs.marked_state) as H.
  cbv zeta in H. destruct H as (_ & _ & _ & _ & _ & Hfail).
  destruct (Hfail None (or_introl eq_refl)) as (_ & Hkeep & _).
  exact Hkeep.
Defined.

(** X2.  Manual toggles compose as expected: of two toggles of the same
    student only the last one counts, and toggles of two different students
    can be made in either order. *)
Theorem markAttendance_compose (id1 id2 : string) (s1 s2 : Status)
    (m : gmap string AttendanceRecord) :
  markAttendance id1 s2 (markAttendance id1 s1 m) = markAttendance id1 s2 m ∧
  (id1 ≠ id2 →
   markAttendance id1 s1 (markAttendance id2 s2 m)
   = markAttendance id2 s2 (markAttendance id1 s1 m)).
Proof.
  unfold markAttendance. split.
  - rewrite lookup_insert_eq. simpl. by rewrite insert_insert_eq.
  - intros Hne. rewrite !lookup_insert_ne by done.
    by rewrite insert_insert_ne.
Qed.

Lemma markAttendance_compose_witness :
  markAttendance "A" late (markAttendance "B" present (attendance Inputs.roster_state))
  = markAttendance "B" present (markAttendance "A" late (attendance Inputs.roster_state)).
Proof.
  apply (markAttendance_compose "A" "B" late present
           (attendance Inputs.roster_state)).
  discriminate.
Defined.

(** X3.  A manual toggle moves the displayed counts by at most one: the
    present count loses one if the student's entry was present and gains one
    if the new status is present; the absent count moves the other way. *)
Theorem markAttendance_counts (studentId : string) (s : Status)
    (students : list Student) (m : gmap string AttendanceRecord) :
  let was := if decide (status <$> m !! studentId = Some present) then 1 else 0 in
  let now := if decide (s = present) then 1 else 0 in
  presentCount (markAttendance studentId s m) = presentCount m - was + now ∧
  absentCount students (markAttendance studentId s m)
  = absentCount students m + was - now.
Proof.
  intros was now. subst was now.
  assert (presentCount (markAttendance studentId s m)
          = presentCount m
            - (if decide (status <$> m !! studentId = Some present) then 1 else 0)
            + (if decide (s = present) then 1 else 0)) as Hp.
  { unfold markAttendance. rewrite presentCount_insert. simpl.
    rewrite (presentCount_delete m studentId). lia. }
  split; [exact Hp|]. unfold absentCount. rewrite Hp. lia.
Qed.
End page_more.

Section page_events.
Import TakeAttendance Page.

Lemma size_list_to_set_le (l : list string) :
  (size (list_to_set l : gset string) ≤ length l)%nat.
Proof.
  induction l as [|x l IH].
  - by rewrite list_to_set_nil, size_empty.
  - rewrite list_to_set_cons, size_union_alt, size_singleton. simpl.
    assert (size (list_to_set l ∖ {[x]} : gset string)
            ≤ size (list_to_set l : gset string))%nat
      by (apply subseteq_size; intros j [? _]%elem_of_difference; done).
    lia.
Qed.

Lemma roster_invariant_step (data : list Student) (st : State) (e : Event) :
  roster_invariant data st → within_roster data e →
  roster_invariant data (step st e).
Proof.
  intros (Hst & Hdom & Hid) He.
  assert (∀ k, k ∈ user_id <$> data → k ∈ dom (attendance st)) as Hin.
  { intros k Hk. rewrite Hdom. by apply elem_of_list_to_set. }
  assert (∀ k (r : AttendanceRecord), k ∈ user_id <$> data →
            dom (<[k := r]> (attendance st)) = list_to_set (user_id <$> data))
    as Hdom'.
  { intros k r Hk. rewrite dom_insert_L, <- Hdom.
    apply Hin in Hk. apply set_eq. intros j.
    rewrite elem_of_union, elem_of_singleton.
    split; [by intros [->|?]|by right]. }
  unfold roster_invariant.
  destruct e as [studentId s|classId hasFile o]; simpl.
  - simpl in He. split; [done|]. split.
    + unfold markAttendance. by apply Hdom'.
    + intros k r. unfold markAttendance.
      destruct (decide (studentId = k)) as [<-|Hne].
      * rewrite lookup_insert_eq. intros [= <-]. simpl.
        apply Hin, elem_of_dom in He as [r0 Hr0]. rewrite Hr0. simpl.
        by apply Hid.
      * rewrite lookup_insert_ne by done. apply Hid.
  - unfold handleFaceRecognition. destruct hasFile; simpl; [|done].
    destruct o as [|ok result]; simpl; [done|].
    destruct ok; simpl; [|done].
    destruct (success result) eqn:Hsuccess; simpl; [|done].
    simpl in He. destruct (He Hsuccess) as (studentId & Hsome & Hk).
    unfold recognizedUpdate. rewrite Hsome. simpl.
    split; [done|]. split; [by apply Hdom'|].
    intros k r. destruct (decide (studentId = k)) as [<-|Hne].
    + rewrite lookup_insert_eq. by intros [= <-].
    + rewrite lookup_insert_ne by done. apply Hid.
Qed.

(** X4.  As long as the toggles and the recognized students are students
    of the roster, the page keeps the roster, the attendance map has exactly
    the roster's ids as keys, every entry carries its own id, and the
    displayed counts stay within bounds: present between 0 and the number of
    students, absent never negative. *)
Theorem run_within_roster (data : list Student) (events : list Event)
    (st0 : State) :
  Forall (within_roster data) events →
  let st := run events (fetchStudents (Some (true, data)) st0) in
  students st = data ∧
  dom (attendance st) = list_to_set (user_id <$> data) ∧
  (∀ k r, attendance st !! k = Some r → student_id r = Some k) ∧
  0 ≤ presentCount (attendance st) ≤ Z.of_nat (length data) ∧
  0 ≤ absentCount (students st) (attendance st).
Proof.
  intros Hevents st.
  assert (roster_invariant data st) as (Hst & Hdom & Hid).
  { subst st. unfold run.
    assert (roster_invariant data (fetchStudents (Some (true, data)) st0)) as Hinit.
    { split; [done|]. split.
      - apply set_eq. intros k. rewrite elem_of_dom, elem_of_list_to_set. simpl.
        unfold initialAttendance. rewrite initialAttendance_lookup.
        case_decide; [by split; [|eauto]|].
        rewrite lookup_empty. split; [by intros [? ?]|done].
      - intros k r. simpl. unfold initialAttendance.
        rewrite initialAttendance_lookup. case_decide; [by intros [= <-]|].
        by rewrite lookup_empty. }
    revert Hinit. generalize (fetchStudents (Some (true, data)) st0).
    induction Hevents as [|e events He Hevents IH]; intros st Hinv; [done|].
    simpl. apply IH. by apply roster_invariant_step. }
  assert (Z.of_nat (size (attendance st)) ≤ Z.of_nat (length data)) as Hsize.
  { rewrite <- size_dom, Hdom.
    pose proof (size_list_to_set_le (user_id <$> data)) as Hle.
    rewrite length_fmap in Hle. lia. }
  pose proof (presentCount_bounds (attendance st)) as Hbounds.
  split; [done|]. split; [done|]. split; [done|].
  unfold absentCount. rewrite Hst. lia.
Qed.

Lemma run_within_roster_witness :
  0 ≤ absentCount
        (students (run [Toggle "A" present;
                        Photo "c1" true (Responded true Inputs.both_recognized);
                        Toggle "B" late]
                       (fetchStudents (Some (true, [Inputs.alice; Inputs.bob]))
                          initialState)))
        (attendance (run [Toggle "A" present;
                          Photo "c1" true (Responded true Inputs.both_recognized);
                          Toggle "B" late]
                         (fetchStudents (Some (true, [Inputs.alice; Inputs.bob]))
                            initialState))).
Proof.
  apply (run_within_roster [Inputs.alice; Inputs.bob]
           [Toggle "A" present;
            Photo "c1" true (Responded true Inputs.both_recognized);
            Toggle "B" late] initialState).
  apply Forall_cons_2; [|apply Forall_cons_2; [|apply Forall_cons_2; [|apply Forall_nil_2]]].
  - simpl. apply list_elem_of_here.
  - simpl. intros _. exists "A"%string. split; [reflexivity|apply list_elem_of_here].
  - simpl. apply list_elem_of_further, list_elem_of_here.
Defined.

(** X5.  No event of the page changes the roster or removes an entry of
    the attendance map. *)
Theorem run_keeps_entries (events : list Event) (st : State) :
  students (run events st) = students st ∧
  dom (attendance st) ⊆ dom (attendance (run events st)).
Proof.
  unfold run. revert st. induction events as [|e events IH]; intros st; [done|].
  simpl. destruct (IH (step st e)) as [Hst Hdom].
  assert (students (step st e) = students st ∧
          dom (attendance st) ⊆ dom (attendance (step st e))) as [Hst' Hdom'].
  { destruct e as [studentId s|classId hasFile o]; simpl.
    - split; [done|]. unfold markAttendance. rewrite dom_insert_L.
      apply union_subseteq_r.
    - unfold handleFaceRecognition. destruct hasFile; simpl; [|done].
      destruct o as [|ok result]; simpl; [done|].
      destruct (ok && success result); simpl; [|done].
      split; [done|]. unfold recognizedUpdate. rewrite dom_insert_L.
      apply union_subseteq_r. }
  split; [congruence|]. by etrans.
Qed.
End page_events.

Section page_edges.
Import TakeAttendance.



Lemma postAll_stops fetch_ok l1 b l2 :
  (∀ x, x ∈ l1 → fetch_ok x = true) → fetch_ok b = false →
  postAll fetch_ok (l1 ++ b :: l2) = (PostManual <$> (l1 ++ [b]), false).
Proof.
  intros Hok Hfail. induction l1 as [|x l1 IH]; simpl.
  - by rewrite Hfail.
  - rewrite (Hok x) by apply list_elem_of_here.
    rewrite IH; [done|]. intros y Hy. by apply Hok, list_elem_of_further.
Qed.

(** X6.  Toggling a student that has no entry in the map creates an entry
    with the requested status, method manual, no score and no [student_id];
    if the status is present, saving then posts a record without
    [student_id]. *)
Theorem markAttendance_missing_entry (studentId : string) (s : Status)
    (classId today : string) (fetch_ok : ManualBody → bool) (st : State) :
  attendance st !! studentId = None →
  markAttendance studentId s (attendance st) !! studentId
  = Some {| student_id := None; status := s; method := manual;
            confidence_score := None |} ∧
  ((∀ b, fetch_ok b = true) →
   PostManual {| mb_student_id := None; mb_subject_id := classId;
                 mb_date := today; mb_status := present |}
   ∈ (saveAttendance classId today fetch_ok
        (setAttendance (markAttendance studentId present) st)).1.2).
Proof.
  intros Hnone. unfold markAttendance. rewrite Hnone. simpl.
  split; [by rewrite lookup_insert_eq|].
  intros Hok. unfold saveAttendance. rewrite (postAll_all_ok _ _ Hok). simpl.
  apply list_elem_of_fmap_2.
  apply list_elem_of_fmap.
  exists {| student_id := None; status := present; method := manual;
            confidence_score := None |}. split; [done|].
  unfold attendanceRecords. apply list_elem_of_filter. split; [done|].
  apply Object_values_elem. exists studentId. simpl.
  by rewrite lookup_insert_eq, Hnone.
Qed.

Lemma markAttendance_missing_entry_witness :
  PostManual {| mb_student_id := None; mb_subject_id := "c1";
                mb_date := "2024-09-02"; mb_status := present |}
  ∈ (saveAttendance "c1" "2024-09-02" Inputs.always_ok
       (setAttendance (markAttendance "Z" present) Inputs.roster_state)).1.2.
Proof.
  apply (markAttendance_missing_entry "Z" present "c1" "2024-09-02"
           Inputs.always_ok Inputs.roster_state).
  - vm_compute. reflexivity.
  - intros b. reflexivity.
Defined.

(** X7.  A successful photo submission issues exactly one request, to the
    face endpoint, shows the response, ends with the upload flag off, keeps
    the roster, and writes exactly one entry of the attendance map: the one
    keyed by the response's top-level [student_id], which becomes present by
    face recognition with the response's [similarity_score], whatever it was
    before.  Every other entry is as before. *)
Theorem photo_changes_one_entry (classId : string) (result : FaceResult)
    (st : State) :
  success result = true →
  let out := handleFaceRecognition classId true (Responded true result) st in
  out.2 = [PostMarkFace classId] ∧
  students out.1 = students st ∧
  uploadingPhoto out.1 = false ∧
  faceResults out.1 = Some result ∧
  attendance out.1 !! property_key (fr_student_id result)
  = Some {| student_id := fr_student_id result; status := present;
            method := face_recognition;
            confidence_score := fr_similarity_score result |} ∧
  (∀ k, k ≠ property_key (fr_student_id result) →
        attendance out.1 !! k = attendance st !! k).
Proof.
  intros Hsuccess out. subst out. unfold handleFaceRecognition. simpl.
  rewrite Hsuccess. simpl. unfold recognizedUpdate.
  split; [done|]. split; [done|]. split; [done|]. split; [done|].
  split; [by rewrite lookup_insert_eq|].
  intros k Hk. by rewrite lookup_insert_ne.
Qed.

Lemma photo_changes_one_entry_witness :
  attendance
    (handleFaceRecognition "c1" true (Responded true Inputs.both_recognized)
       Inputs.marked_state).1 !! "B"
  = attendance Inputs.marked_state !! "B".
Proof.
  apply (photo_changes_one_entry "c1" Inputs.both_recognized
           Inputs.marked_state eq_refl).
  discriminate.
Defined.

(** X8.  A successful response without a top-level [student_id] changes no
    existing entry: it adds an entry under the key "undefined" (when there
    is none yet), without [student_id], and the page shows one more student
    present and one fewer absent. *)
Theorem photo_without_student_id (classId : string) (result : FaceResult)
    (st : State) :
  success result = true → fr_student_id result = None →
  attendance st !! "undefined" = None →
  let st' := (handleFaceRecognition classId true (Responded true result) st).1 in
  (∀ k r, attendance st !! k = Some r → attendance st' !! k = Some r) ∧
  student_id <$> attendance st' !! "undefined" = Some None ∧
  presentCount (attendance st') = presentCount (attendance st) + 1 ∧
  absentCount (students st') (attendance st')
  = absentCount (students st) (attendance st) - 1.
Proof.
  intros Hsuccess Hid Hfree st'. subst st'.
  unfold handleFaceRecognition. simpl. rewrite Hsuccess. simpl.
  unfold recognizedUpdate. rewrite Hid. simpl.
  assert (presentCount
            (<["undefined" :=
                 {| student_id := None; status := present;
                    method := face_recognition;
                    confidence_score := fr_similarity_score result |}]>
               (attendance st))
          = presentCount (attendance st) + 1) as Hcount.
  { rewrite presentCount_insert. simpl. by rewrite delete_id. }
  split; [|split; [by rewrite lookup_insert_eq|split; [exact Hcount|]]].
  - intros k r Hk. rewrite lookup_insert_ne; [done|]. congruence.
  - unfold absentCount. rewrite Hcount. lia.
Qed.

Lemma photo_without_student_id_witness :
  absentCount
    (students (handleFaceRecognition "c1" true
                 (Responded true
                    {| success := true; message := None; fr_student_id := None;
                       fr_similarity_score := None; faces_detected := Some 1;
                       faces_recognized := Some 1; faces_unrecognized := Some 0;
                       recognized_students := None; unrecognized_faces := None |})
                 initialState).1)
    (attendance (handleFaceRecognition "c1" true
                 (Responded true
                    {| success := true; message := None; fr_student_id := None;
                       fr_similarity_score := None; faces_detected := Some 1;
                       faces_recognized := Some 1; faces_unrecognized := Some 0;
                       recognized_students := None; unrecognized_faces := None |})
                 initialState).1)
  = absentCount (students initialState) (attendance initialState) - 1.
Proof.
  apply (photo_without_student_id "c1"
           {| success := true; message := None; fr_student_id := None;
              fr_similarity_score := None; faces_detected := Some 1;
              faces_recognized := Some 1; faces_unrecognized := Some 0;
              recognized_students := None; unrecognized_faces := None |}
           initialState); reflexivity.
Defined.

(** X9.  Saving is not atomic.  Whatever the order in which
    [Object.values(attendance)] lists the records: with the model's own
    order the function is [saveAttendance] itself; and when the request for
    some present record throws, the requests for the present records listed
    before it have been sent and have gone through, the failing request was
    attempted, nothing after it is sent, and the alert reports the error.
    The requests listed are those of present entries of the map. *)
Theorem saveAttendance_stops_at_failure (classId today : string)
    (fetch_ok : ManualBody → bool) (st : State)
    (values : list AttendanceRecord) (l1 l2 : list ManualBody)
    (b : ManualBody) :
  Enumeration.enumerates values (attendance st) →
  manualBody classId today <$> filter (λ record, status record = present) values
  = l1 ++ b :: l2 →
  (∀ x, x ∈ l1 → fetch_ok x = true) → fetch_ok b = false →
  let out := Enumeration.saveAttendanceOver values classId today fetch_ok st in
  Enumeration.saveAttendanceOver (Object_values (attendance st))
    classId today fetch_ok st
  = saveAttendance classId today fetch_ok st ∧
  out.1.2 = PostManual <$> (l1 ++ [b]) ∧
  out.2 = "Error saving attendance" ∧
  attendance out.1.1 = attendance st ∧
  (∀ x, x ∈ l1 ++ b :: l2 →
     ∃ k r, attendance st !! k = Some r ∧ status r = present ∧
            x = manualBody classId today r).
Proof.
  intros Henum Hbodies Hok Hfail out. subst out.
  split; [done|]. unfold Enumeration.saveAttendanceOver.
  rewrite Hbodies, (postAll_stops _ _ _ _ Hok Hfail). simpl.
  split; [done|]. split; [done|]. split; [done|].
  intros x Hx. rewrite <- Hbodies in Hx.
  apply list_elem_of_fmap in Hx as (r & -> & Hr).
  apply list_elem_of_filter in Hr as [Hp Hr].
  unfold Enumeration.enumerates in Henum. rewrite Henum in Hr.
  apply Object_values_elem in Hr as [k Hk]. by exists k, r.
Qed.

(** The roster was fetched as [bob; alice] and both are present; the
    request for [alice] throws.  With the records listed in the order of
    insertion, [bob]'s record is posted and then [alice]'s is attempted. *)
Lemma saveAttendance_stops_at_failure_witness :
  (Enumeration.saveAttendanceOver MoreInputs.bob_then_alice_values
     "c1" "2024-09-02" MoreInputs.alice_fails MoreInputs.bob_then_alice).1.2
  = [ PostManual {| mb_student_id := Some "B"; mb_subject_id := "c1";
                    mb_date := "2024-09-02"; mb_status := present |};
      PostManual {| mb_student_id := Some "A"; mb_subject_id := "c1";
                    mb_date := "2024-09-02"; mb_status := present |} ] ∧
  (Enumeration.saveAttendanceOver MoreInputs.bob_then_alice_values
     "c1" "2024-09-02" MoreInputs.alice_fails MoreInputs.bob_then_alice).2
  = "Error saving attendance".
Proof.
  destruct (saveAttendance_stops_at_failure "c1" "2024-09-02"
              MoreInputs.alice_fails MoreInputs.bob_then_alice
              MoreInputs.bob_then_alice_values
              [ {| mb_student_id := Some "B"; mb_subject_id := "c1";
                   mb_date := "2024-09-02"; mb_status := present |} ]
              []
              {| mb_student_id := Some "A"; mb_subject_id := "c1";
                 mb_date := "2024-09-02"; mb_status := present |})
    as (_ & Hreqs & Halert & _).
  - unfold Enumeration.enumerates.
    replace (Object_values (attendance MoreInputs.bob_then_alice))
      with (rev MoreInputs.bob_then_alice_values) by (vm_compute; reflexivity).
    apply Permutation_swap.
  - vm_compute. reflexivity.
  - intros x ->%list_elem_of_singleton. reflexivity.
  - reflexivity.
  - split; [exact Hreqs|exact Halert].
Defined.


End page_edges.

(** ** [compare_faces]: the threshold as a dial *)

Section face_service_more.
Import FaceService.

(** X11.  Leaving the threshold out is the same as passing 0.6, and raising
    the threshold never loses a match: an encoding that matches under a
    threshold matches under every larger one. *)
Theorem compare_faces_monotone (encoding : Type)
    (face_distance : list encoding → encoding → list Qc)
    (known_encodings : list encoding) (face_encoding : encoding)
    (t1 t2 : Qc) (i : nat) :
  compare_faces encoding face_distance known_encodings face_encoding None
  = compare_faces encoding face_distance known_encodings face_encoding
      (Some (score 6 10)) ∧
  (Qcle t1 t2 →
   compare_faces encoding face_distance known_encodings face_encoding (Some t1)
     !! i = Some true →
   compare_faces encoding face_distance known_encodings face_encoding (Some t2)
     !! i = Some true).
Proof.
  split; [done|]. intros Hle. unfold compare_faces. simpl.
  rewrite !list_lookup_fmap.
  destruct (face_distance known_encodings face_encoding !! i) as [d|]; [|done].
  simpl. intros [= Hlt]. f_equal. apply Qcltb_lt. apply Qcltb_lt in Hlt.
  by eapply Qclt_le_trans.
Qed.

Lemma compare_faces_monotone_witness :
  compare_faces unit (λ _ _, [score 1 2]) [] () (Some (score 7 10)) !! 0%nat
  = Some true.
Proof.
  apply (compare_faces_monotone unit (λ _ _, [score 1 2]) [] ()
           (score 6 10) (score 7 10) 0).
  - apply Qcleb_le. vm_compute. reflexivity.
  - vm_compute. reflexivity.
Defined.
End face_service_more.

(** ** The [attendance] table: inserts, keys and checks *)

Section schema_more.
Import Schema.

Lemma insert_inr allowed r (t t' : table) :
  insert allowed r t = inr t' →
  t' = t ++ [r] ∧ check_status r = true ∧ check_method allowed r = true ∧
  primary_key_conflict r t = false ∧ unique_conflict r t = false.
Proof.
  unfold insert.
  destruct (check_status r), (check_method allowed r); simpl; try done.
  destruct (primary_key_conflict r t), (unique_conflict r t); simpl; try done.
  by intros [= <-].
Qed.

Lemma exec_cases allowed s (t : table) :
  (∃ r, (s = Insert r ∨ s = InsertDoNothing r) ∧
        exec allowed s t = t ++ [r] ∧
        check_status r = true ∧ check_method allowed r = true ∧
        primary_key_conflict r t = false ∧ unique_conflict r t = false) ∨
  (∃ P : attendance_row → Prop, ∃ _ : ∀ r, Decision (P r),
        exec allowed s t = filter P t).
Proof.
  assert (∃ P : attendance_row → Prop, ∃ _ : ∀ r, Decision (P r),
            t = filter P t) as Hsame.
  { exists (λ _, True), _. induction t as [|r t IH]; [done|].
    rewrite filter_cons. simpl. by rewrite <- IH. }
  destruct s as [r|r|c|i]; simpl.
  - unfold insert.
    destruct (check_status r) eqn:?, (check_method allowed r) eqn:?;
      simpl; try by right.
    destruct (primary_key_conflict r t) eqn:?, (unique_conflict r t) eqn:?;
      simpl; try by right.
    left. exists r. eauto 10.
  - unfold insert_do_nothing.
    destruct (check_status r) eqn:?, (check_method allowed r) eqn:?;
      simpl; try by right.
    destruct (unique_conflict r t) eqn:?; [by right|].
    destruct (primary_key_conflict r t) eqn:?; [by right|].
    left. exists r. eauto 10.
  - right. by exists (λ r, subject_id r ≠ Some c), _.
  - right. by exists (λ r, student_id r ≠ Some i), _.
Qed.

(** X12.  Insert and look up: after an insert that succeeds, the rows
    recorded for the new row's class, identity and date are exactly the new
    row, and the rows recorded for any other class, identity or date are
    what they were. *)
Theorem insert_then_lookup (allowed : list string) (r : attendance_row)
    (t t' : table) (c i : string) :
  insert allowed r t = inr t' →
  subject_id r = Some c → student_id r = Some i →
  rows_of c i (date r) t' = [r] ∧
  (∀ c' i' d', (c', i', d') ≠ (c, i, date r) →
     rows_of c' i' d' t' = rows_of c' i' d' t).
Proof.
  intros (-> & _ & _ & _ & Hfree)%insert_inr Hc Hi.
  split.
  - rewrite rows_of_app, (unique_conflict_false r t c i (date r)) by done.
    rewrite (rows_of_cons c i (date r) [] r), decide_True by done. done.
  - intros c' i' d' Hne. rewrite rows_of_app, (rows_of_cons c' i' d' [] r).
    rewrite decide_False; [by rewrite app_nil_r|].
    intros (Hc' & Hi' & Hd'). apply Hne. congruence.
Qed.

Lemma insert_then_lookup_witness :
  rows_of "c1" "A" "2024-09-02" [Inputs.first_mark] = [Inputs.first_mark].
Proof.
  apply (insert_then_lookup classroom_methods Inputs.first_mark []
           [Inputs.first_mark] "c1" "A"); reflexivity.
Defined.

Lemma null_key_never_same (r r' : attendance_row) :
  subject_id r = None ∨ student_id r = None →
  ¬ same_key r r' ∧ ¬ same_key r' r.
Proof.
  intros Hnull. unfold same_key. split.
  - destruct Hnull as [Hn|Hn]; rewrite Hn; [by intros []|].
    destruct (subject_id r); by intros [].
  - destruct (subject_id r'), (student_id r'); try by intros [].
    intros (Hc & Hi & _). destruct Hnull; congruence.
Qed.

(** X13.  The uniqueness constraint does not protect rows whose class or
    identity is [NULL].  Such a row collides on the key with no row, in
    either direction, whatever the table holds.  So [ON CONFLICT DO NOTHING]
    never skips it: if the statement succeeds, the row has been added.  A
    uniqueness error of the plain insert can only come from its [id].  And
    the invariant that the constraint maintains does not count it: a table
    in which the key is unique keeps that property when the row is added,
    even if it already holds rows that agree with it on every column of the
    key. *)
Theorem null_key_not_protected (allowed : list string) (r : attendance_row)
    (t : table) :
  subject_id r = None ∨ student_id r = None →
  unique_conflict r t = false ∧
  (∀ r', ¬ same_key r r' ∧ ¬ same_key r' r) ∧
  (∀ t', insert_do_nothing allowed r t = inr t' → t' = t ++ [r]) ∧
  (insert allowed r t = inl unique_violation → primary_key_conflict r t = true) ∧
  (key_unique t → key_unique (t ++ [r])).
Proof.
  intros Hnull.
  assert (unique_conflict r t = false) as Hfree.
  { unfold unique_conflict. apply bool_decide_eq_false.
    intros (r' & _ & Hkey)%Exists_exists.
    by destruct (null_key_never_same r r' Hnull) as [Hnot _]. }
  split; [done|]. split; [intros r'; by apply null_key_never_same|].
  split; [|split].
  - intros t'. unfold insert_do_nothing. rewrite Hfree.
    destruct (negb (check_status r && check_method allowed r)); [done|].
    destruct (primary_key_conflict r t); [done|]. by intros [= <-].
  - unfold insert. rewrite Hfree, orb_false_r.
    destruct (negb (check_status r && check_method allowed r)); [done|].
    by destruct (primary_key_conflict r t).
  - intros Hunique c i d. rewrite rows_of_app, (rows_of_cons c i d [] r).
    rewrite decide_False; [rewrite app_nil_r; apply Hunique|].
    intros (Hc & Hi & _). destruct Hnull; congruence.
Qed.

(** Two rows for the same identity and date whose class is [NULL]: the
    second is added by the insert, and the key is still unique in the
    resulting table. *)
Lemma null_key_not_protected_witness :
  insert_do_nothing classroom_methods MoreInputs.second_null_mark
    [MoreInputs.first_null_mark]
  = inr [MoreInputs.first_null_mark; MoreInputs.second_null_mark] ∧
  key_unique [MoreInputs.first_null_mark; MoreInputs.second_null_mark].
Proof.
  destruct (null_key_not_protected classroom_methods MoreInputs.second_null_mark
              [MoreInputs.first_null_mark] (or_introl eq_refl))
    as (_ & _ & Hadded & _ & Hunique).
  split.
  - reflexivity.
  - apply Hunique. intros c i d. vm_compute. lia.
Defined.

Lemma insert_rows_inr allowed rows (t t' : table) :
  MultiRow.insert_rows allowed rows t = inr t' → t' = t ++ rows.
Proof.
  revert t. induction rows as [|r rows IH]; intros t; simpl.
  - intros [= <-]. by rewrite app_nil_r.
  - destruct (insert allowed r t) as [e|t1] eqn:Hr; [done|].
    apply insert_inr in Hr as (-> & _). intros ->%IH.
    by rewrite <- app_assoc.
Qed.

Lemma insert_rows_do_nothing_too allowed rows (t t' : table) :
  MultiRow.insert_rows allowed rows t = inr t' →
  MultiRow.insert_rows_do_nothing allowed rows t = inr t'.
Proof.
  revert t. induction rows as [|r rows IH]; intros t; simpl; [done|].
  destruct (insert allowed r t) as [e|t1] eqn:Hr; [done|].
  apply insert_inr in Hr as (-> & Hs & Hm & Hpk & Hkey).
  unfold insert_do_nothing. rewrite Hs, Hm, Hkey, Hpk. simpl. apply IH.
Qed.

Lemma unique_conflict_app r (t1 t2 : table) :
  unique_conflict r t1 = true → unique_conflict r (t1 ++ t2) = true.
Proof.
  unfold unique_conflict. rewrite !bool_decide_eq_true, Exists_app. by left.
Qed.

Lemma insert_rows_do_nothing_inr allowed rows (t t' : table) :
  MultiRow.insert_rows_do_nothing allowed rows t = inr t' →
  ∃ kept, t' = t ++ kept ∧ kept `sublist_of` rows ∧
          ∀ r, r ∈ rows → r ∈ kept ∨ unique_conflict r t' = true.
Proof.
  revert t. induction rows as [|r rows IH]; intros t; simpl.
  - intros [= <-]. exists []. rewrite app_nil_r. split; [done|].
    split; [done|]. by intros r ?%elem_of_nil.
  - unfold insert_do_nothing.
    destruct (negb (check_status r && check_method allowed r)); [done|].
    destruct (unique_conflict r t) eqn:Hkey.
    + intros (kept & -> & Hsub & Hall)%IH. exists kept. split; [done|].
      split; [by apply sublist_cons|].
      intros r' [->|Hr']%elem_of_cons; [|by apply Hall].
      right. by apply unique_conflict_app.
    + destruct (primary_key_conflict r t); [done|].
      intros (kept & -> & Hsub & Hall)%IH. exists (r :: kept).
      split; [by rewrite <- app_assoc|]. split; [by apply sublist_skip|].
      intros r' [->|Hr']%elem_of_cons; [left; apply list_elem_of_here|].
      destruct (Hall r' Hr') as [?|?]; [left; by apply list_elem_of_further|by right].
Qed.

Lemma insert_rows_key_taken allowed rows (t : table) r :
  r ∈ rows → unique_conflict r t = true →
  ∃ e, MultiRow.insert_rows allowed rows t = inl e.
Proof.
  revert t. induction rows as [|x rows IH]; intros t Hr Hkey.
  { by apply elem_of_nil in Hr. }
  simpl. destruct (insert allowed x t) as [e|t1] eqn:Hx; [by exists e|].
  apply insert_inr in Hx as (-> & _ & _ & _ & Hfree).
  apply elem_of_cons in Hr as [->|Hr]; [congruence|].
  apply IH; [done|]. by apply unique_conflict_app.
Qed.

(** X14.  A plain [INSERT] of several rows is all or nothing: when it
    succeeds the table has gained every row of the statement, in order, and
    the same statement with [ON CONFLICT DO NOTHING] then does exactly the
    same; when the key of one of its rows is already taken in the table it
    fails and the table is as it was.  With [ON CONFLICT DO NOTHING] a
    statement that succeeds has added some of its rows, in order, and each
    row it did not add has its key taken in the resulting table.  For a
    statement with a single row the two forms leave the same table. *)
Theorem insert_rows_conflict (allowed : list string)
    (rows : list attendance_row) (t : table) :
  (∀ t', MultiRow.insert_rows allowed rows t = inr t' →
     t' = t ++ rows ∧
     MultiRow.insert_rows_do_nothing allowed rows t = inr t') ∧
  (∀ r, r ∈ rows → unique_conflict r t = true →
     MultiRow.table_after (MultiRow.insert_rows allowed rows t) t = t ∧
     ∃ e, MultiRow.insert_rows allowed rows t = inl e) ∧
  (∀ t', MultiRow.insert_rows_do_nothing allowed rows t = inr t' →
     ∃ kept, t' = t ++ kept ∧ kept `sublist_of` rows ∧
             ∀ r, r ∈ rows → r ∈ kept ∨ unique_conflict r t' = true) ∧
  (∀ r, MultiRow.table_after (MultiRow.insert_rows_do_nothing allowed [r] t) t
        = MultiRow.table_after (MultiRow.insert_rows allowed [r] t) t).
Proof.
  split; [|split; [|split]].
  - intros t' Hplain. split; [by apply insert_rows_inr in Hplain|].
    by apply insert_rows_do_nothing_too.
  - intros r Hr Hkey.
    destruct (insert_rows_key_taken allowed rows t r Hr Hkey) as [e He].
    rewrite He. split; [done|by exists e].
  - apply insert_rows_do_nothing_inr.
  - intros r. simpl. unfold insert, insert_do_nothing.
    destruct (negb (check_status r && check_method allowed r)); [done|].
    by destruct (primary_key_conflict r t), (unique_conflict r t).
Qed.

(** The table holds [first_mark]; a statement brings [second_mark], whose
    key is taken, and [third_mark].  The plain insert fails and stores
    nothing; with [ON CONFLICT DO NOTHING] the third mark is stored. *)
Lemma insert_rows_conflict_witness :
  MultiRow.table_after
    (MultiRow.insert_rows classroom_methods
       [Inputs.second_mark; MoreInputs.third_mark] [Inputs.first_mark])
    [Inputs.first_mark]
  = [Inputs.first_mark] ∧
  MultiRow.insert_rows_do_nothing classroom_methods
    [Inputs.second_mark; MoreInputs.third_mark] [Inputs.first_mark]
  = inr [Inputs.first_mark; MoreInputs.third_mark].
Proof.
  destruct (insert_rows_conflict classroom_methods
              [Inputs.second_mark; MoreInputs.third_mark] [Inputs.first_mark])
    as (_ & Htaken & _ & _).
  split.
  - apply (Htaken Inputs.second_mark).
    + apply list_elem_of_here.
    + reflexivity.
  - reflexivity.
Defined.

(** X15.  In every table reached from the empty one, the [id]s are pairwise
    different, every status is one of present, absent and late, and every
    method is [NULL] or one of the allowed methods. *)
Theorem run_rows_valid (allowed : list string) (ss : list statement) :
  let t := run allowed ss [] in
  NoDup (id <$> t) ∧
  (∀ r, r ∈ t →
     status r ∈ ["present"; "absent"; "late"] ∧
     (∀ m, method r = Some m → m ∈ allowed)).
Proof.
  intros t. subst t.
  set (valid := λ t : table,
         NoDup (id <$> t) ∧
         Forall (λ r, check_status r = true ∧ check_method allowed r = true) t).
  assert (valid (run allowed ss [])) as [Hids Hrows].
  { unfold run. assert (valid []) as Hinit by (split; constructor).
    revert Hinit. generalize ([] : table).
    induction ss as [|s ss IH]; intros t Hvalid; [done|].
    simpl. apply IH. destruct Hvalid as [Hids Hrows].
    destruct (exec_cases allowed s t)
      as [(r & _ & -> & Hs & Hm & Hpk & _)|(P & HP & ->)].
    - split.
      + rewrite fmap_app. apply NoDup_app. split; [done|]. split.
        * intros x Hx [->|Hin%elem_of_nil]%elem_of_cons; [|done].
          apply bool_decide_eq_false in Hpk. apply Hpk, Exists_exists.
          apply list_elem_of_fmap in Hx as (r' & Hid & Hr'). by exists r'.
        * apply NoDup_singleton.
      + apply Forall_app. split; [done|]. by apply Forall_singleton.
    - split.
      + induction t as [|r t IHt]; [constructor|].
        apply Forall_cons in Hrows as [_ Hrows].
        rewrite fmap_cons in Hids. apply NoDup_cons in Hids as [Hr Hids].
        rewrite filter_cons. destruct (decide (P r)); [|by apply IHt].
        rewrite fmap_cons. apply NoDup_cons. split; [|by apply IHt].
        intros (r' & Hid & [_ Hr']%list_elem_of_filter)%list_elem_of_fmap.
        apply Hr, list_elem_of_fmap. by exists r'.
      + apply Forall_forall. intros r [_ Hr]%list_elem_of_filter.
        by eapply Forall_forall in Hrows. }
  split; [done|]. intros r Hr.
  eapply Forall_forall in Hrows as [Hs Hm]; [|done].
  split.
  - by apply bool_decide_eq_true in Hs.
  - intros m Hmethod. unfold check_method in Hm. rewrite Hmethod in Hm.
    by apply bool_decide_eq_true in Hm.
Qed.
End schema_more.

(** ** The code generators of the classroom schema *)

Section strings.

Lemma string_length_app (s1 s2 : string) :
  String.length (s1 +:+ s2) = (String.length s1 + String.length s2)%nat.
Proof. induction s1 as [|a s1 IH]; simpl; [done|]. by rewrite IH. Qed.

Lemma list_ascii_app (s1 s2 : string) :
  String.list_ascii_of_string (s1 +:+ s2)
  = String.list_ascii_of_string s1 ++ String.list_ascii_of_string s2.
Proof. induction s1 as [|a s1 IH]; simpl; [done|]. by rewrite IH. Qed.

Lemma substring_all (s : string) : String.substring 0 (String.length s) s = s.
Proof. induction s as [|a s IH]; simpl; [done|]. by rewrite IH. Qed.

Lemma substring_length (n m : nat) (s : string) :
  (n + m ≤ String.length s)%nat → String.length (String.substring n m s) = m.
Proof.
  revert n m. induction s as [|a s IH]; intros [|n] [|m]; simpl; try lia.
  - intros ?. rewrite (IH 0%nat m); lia.
  - intros ?. rewrite (IH n 0%nat); lia.
  - intros ?. rewrite (IH n (S m)); lia.
Qed.

(** One character taken inside a string is a character of the string. *)
Lemma substring_one (n : nat) (s : string) :
  (n < String.length s)%nat →
  ∃ a, String.substring n 1 s = String a "" ∧
       a ∈ String.list_ascii_of_string s.
Proof.
  revert n. induction s as [|a s IH]; intros n; simpl; [lia|].
  destruct n as [|n]; intros Hn.
  - exists a. split; [by destruct s|]. apply list_elem_of_here.
  - destruct (IH n) as (b & Hb & Hin); [lia|].
    exists b. split; [done|]. by apply list_elem_of_further.
Qed.
End strings.

Section invite_codes.
Import Codes.

Lemma random_position_bounds (r : Qc) :
  Qcle (Q2Qc 0) r → Qclt r (Q2Qc 1) → 1 ≤ random_position r ≤ 36.
Proof.
  unfold Qcle, Qclt, random_position. intros H0 H1.
  change (inject_Z (Z.of_nat (String.length chars))) with (inject_Z 36).
  remember (this r * inject_Z 36 + 1)%Q as x eqn:Hx.
  assert (1 <= x)%Q as Hlo.
  { subst x. change (this (Q2Qc 0)) with (0 # 1)%Q in H0.
    destruct (this r) as [a b]. unfold Qle, Qmult, Qplus, inject_Z in *.
    simpl in *. lia. }
  assert (x < inject_Z 37)%Q as Hhi.
  { subst x. change (this (Q2Qc 1)) with (1 # 1)%Q in H1.
    destruct (this r) as [a b]. unfold Qlt, Qmult, Qplus, inject_Z in *.
    simpl in *. lia. }
  split.
  - rewrite <- (Qfloor_Z 1). by apply Qfloor_resp_le.
  - assert (inject_Z (Qfloor x) < inject_Z 37)%Q as Hlt
      by (eapply Qle_lt_trans; [apply Qfloor_le|done]).
    rewrite <- Zlt_Qlt in Hlt. lia.
Qed.

Lemma substr_chars (k : Z) :
  1 ≤ k ≤ 36 →
  ∃ a, substr chars k 1 = String a "" ∧ a ∈ String.list_ascii_of_string chars.
Proof.
  intros Hk. unfold substr.
  rewrite Z.max_l by lia. rewrite (proj2 (Z.leb_gt _ _)) by lia.
  replace (Z.to_nat (k + 1 - k)) with 1%nat by lia.
  apply substring_one. change (String.length chars) with 36%nat. lia.
Qed.

Lemma invite_loop_format (random : nat → Qc) (call rounds : nat) (result : string) :
  (∀ i, Qcle (Q2Qc 0) (random i) ∧ Qclt (random i) (Q2Qc 1)) →
  String.length (invite_loop random call rounds result)
  = (String.length result + rounds)%nat ∧
  (∀ a, a ∈ String.list_ascii_of_string (invite_loop random call rounds result) →
        a ∈ String.list_ascii_of_string result ∨
        a ∈ String.list_ascii_of_string chars).
Proof.
  intros Hrandom. revert call result.
  induction rounds as [|rounds IH]; intros call result; simpl.
  - split; [lia|by left].
  - destruct (substr_chars (random_position (random call))) as (c & Hc & Hin).
    { apply random_position_bounds; apply Hrandom. }
    rewrite Hc. destruct (IH (S call) (result +:+ String c "")%string) as [Hlen Hchars].
    split.
    + rewrite Hlen, string_length_app. simpl. lia.
    + intros a Ha. apply Hchars in Ha as [Ha|Ha]; [|by right].
      rewrite list_ascii_app in Ha. apply elem_of_app in Ha as [Ha|Ha]; [by left|].
      right. simpl in Ha. by apply list_elem_of_singleton in Ha as ->.
Qed.

(** X16.  As long as [random()] yields values in [0, 1), an invite code has
    exactly eight characters, each of them an upper-case letter or a digit of
    [chars], and producing it takes eight evaluations of [random()]. *)
Theorem generate_invite_code_format (random : nat → Qc) (call : nat) :
  (∀ i, Qcle (Q2Qc 0) (random i) ∧ Qclt (random i) (Q2Qc 1)) →
  String.length (generate_invite_code random call).1 = 8%nat ∧
  (∀ a, a ∈ String.list_ascii_of_string (generate_invite_code random call).1 →
        a ∈ String.list_ascii_of_string chars) ∧
  (generate_invite_code random call).2 = (call + 8)%nat.
Proof.
  intros Hrandom. unfold generate_invite_code. simpl fst. simpl snd.
  destruct (invite_loop_format random call 8 "" Hrandom) as [Hlen Hchars].
  split; [exact Hlen|]. split; [|done].
  intros a Ha. apply Hchars in Ha as [Ha|Ha]; [|done].
  by apply elem_of_nil in Ha.
Qed.

Lemma generate_invite_code_format_witness :
  String.length (generate_invite_code (λ _, score 1 2) 0).1 = 8%nat.
Proof.
  apply (generate_invite_code_format (λ _, score 1 2) 0).
  intros i. split.
  - apply Qcleb_le. vm_compute. reflexivity.
  - apply Qcltb_lt. vm_compute. reflexivity.
Defined.
End invite_codes.

Section subject_codes.
Import Codes Stdlib.Strings.Ascii.

Lemma string_of_uint_length (d : Decimal.uint) :
  String.length (NilEmpty.string_of_uint d) = Decimal.nb_digits d.
Proof. induction d; simpl; congruence. Qed.

Lemma bigint_text_nonneg (n : Z) :
  0 ≤ n → bigint_text n = NilEmpty.string_of_uint (N.to_uint (Z.to_N n)).
Proof.
  intros Hn. unfold bigint_text. destruct n as [|p|p]; [done| |lia].
  simpl. pose proof (DecimalPos.Unsigned.to_uint_nonnil p) as Hnil.
  unfold NilZero.string_of_uint. by destruct (Pos.to_uint p).
Qed.

Lemma of_uint_acc_bounds (d : Decimal.uint) (acc : positive) :
  (N.pos acc * 10 ^ N.of_nat (Decimal.nb_digits d)
   ≤ N.pos (Pos.of_uint_acc d acc)
   < (N.pos acc + 1) * 10 ^ N.of_nat (Decimal.nb_digits d))%N.
Proof.
  revert acc. induction d as [|u IH|u IH|u IH|u IH|u IH|u IH|u IH|u IH|u IH|u IH];
    intros acc; simpl Pos.of_uint_acc; simpl Decimal.nb_digits.
  { simpl. lia. }
  all: rewrite Nat2N.inj_succ, N.pow_succ_r';
    match goal with
    | |- context [Pos.of_uint_acc ?v ?a] =>
        specialize (IH a);
        set (q := (10 ^ N.of_nat (Decimal.nb_digits v))%N) in *;
        assert (q ≠ 0)%N by (subst q; apply N.pow_nonzero; lia)
    end;
    nia.
Qed.

Lemma nzhead_head (d u : Decimal.uint) : Decimal.nzhead d ≠ Decimal.D0 u.
Proof. induction d; simpl; done. Qed.

(** The value of a positive number lies between the powers of ten that
    its number of digits gives. *)
Lemma to_uint_bounds (p : positive) :
  (10 ^ N.of_nat (Decimal.nb_digits (Pos.to_uint p) - 1) ≤ N.pos p
   < 10 ^ N.of_nat (Decimal.nb_digits (Pos.to_uint p)))%N.
Proof.
  pose proof (DecimalPos.Unsigned.of_to p) as Hof.
  pose proof (DecimalPos.Unsigned.to_of (Pos.to_uint p)) as Hnorm.
  rewrite Hof in Hnorm. simpl in Hnorm.
  pose proof (DecimalPos.Unsigned.to_uint_nonzero p) as Hnz.
  pose proof (DecimalPos.Unsigned.to_uint_nonnil p) as Hnil.
  destruct (Pos.to_uint p) as [|d|d|d|d|d|d|d|d|d|d] eqn:Hd; [done| | | | | | | | | |].
  { exfalso. rewrite unorm_D0 in Hnorm. unfold Decimal.unorm in Hnorm.
    destruct (Decimal.nzhead d) eqn:Hhead; try done; try congruence.
    by apply nzhead_head in Hhead. }
  all: simpl Pos.of_uint in Hof; injection Hof as Hof;
    simpl Decimal.nb_digits; rewrite Nat.sub_succ, Nat.sub_0_r, Nat2N.inj_succ,
      N.pow_succ_r';
    match goal with
    | H : Pos.of_uint_acc ?v ?a = _ |- _ =>
        pose proof (of_uint_acc_bounds v a) as Hb; rewrite H in Hb;
        set (q := (10 ^ N.of_nat (Decimal.nb_digits v))%N) in *
    end;
    nia.
Qed.

Lemma bigint_text_length (n : Z) :
  0 ≤ n →
  (n < 1000000 → (String.length (bigint_text n) ≤ 6)%nat) ∧
  (1000000 ≤ n → (6 < String.length (bigint_text n))%nat).
Proof.
  intros Hn. rewrite bigint_text_nonneg, string_of_uint_length by done.
  destruct n as [|p|p]; [simpl; lia| |lia].
  simpl. pose proof (to_uint_bounds p) as [Hlo Hhi].
  set (k := Decimal.nb_digits (Pos.to_uint p)) in *.
  split; intros Hp.
  - destruct (decide (k ≤ 6)%nat) as [|Hk]; [done|]. exfalso.
    assert (10 ^ 6 ≤ 10 ^ N.of_nat (k - 1))%N by (apply N.pow_le_mono_r; lia).
    change (10 ^ 6)%N with 1000000%N in *. lia.
  - destruct (decide (6 < k)%nat) as [|Hk]; [done|]. exfalso.
    assert (10 ^ N.of_nat k ≤ 10 ^ 6)%N by (apply N.pow_le_mono_r; lia).
    change (10 ^ 6)%N with 1000000%N in *. lia.
Qed.

Lemma prepend_length (k : nat) (a : Ascii.ascii) (s : string) :
  String.length (prepend k a s) = (k + String.length s)%nat.
Proof. induction k as [|k IH]; simpl; [done|]. by rewrite IH. Qed.

Lemma lpad_length (s : string) (len : nat) (a : Ascii.ascii) :
  String.length (lpad s len a) = len.
Proof.
  unfold lpad. destruct (len <=? String.length s)%nat eqn:Hle.
  - apply Nat.leb_le in Hle. apply substring_length. lia.
  - apply Nat.leb_gt in Hle. rewrite prepend_length. lia.
Qed.

Lemma decimal_value_prepend (k : nat) (s : string) :
  decimal_value (prepend k "0"%char s) = decimal_value s.
Proof.
  unfold decimal_value. induction k as [|k IH]; [done|].
  simpl. destruct (NilEmpty.uint_of_string (prepend k "0"%char s)) as [d|];
    simpl in *; [|done]. by rewrite <- IH.
Qed.

Lemma decimal_value_text (n : Z) :
  0 ≤ n → decimal_value (bigint_text n) = Some (Z.to_N n).
Proof.
  intros Hn. unfold decimal_value.
  rewrite bigint_text_nonneg, NilEmpty.usu by done. simpl.
  by rewrite DecimalN.Unsigned.of_to.
Qed.

Lemma lpad_text_value (n : Z) :
  0 ≤ n < 1000000 →
  decimal_value (lpad (bigint_text n) 6 "0"%char) = Some (Z.to_N n).
Proof.
  intros [Hn Hlt]. unfold lpad.
  pose proof (proj1 (bigint_text_length n Hn) Hlt) as Hlen.
  destruct (6 <=? String.length (bigint_text n))%nat eqn:Hle.
  - apply Nat.leb_le in Hle.
    replace 6%nat with (String.length (bigint_text n)) at 1 by lia.
    rewrite substring_all. by apply decimal_value_text.
  - rewrite decimal_value_prepend. by apply decimal_value_text.
Qed.

Lemma substring_prefix (p s : string) :
  String.substring 0 (String.length p) (p +:+ s) = p.
Proof.
  induction p as [|a p IH]; simpl; [by destruct s|]. by rewrite IH.
Qed.

Lemma generate_subject_code_eq (next : Z) :
  generate_subject_code next
  = (("SUB" +:+ lpad (bigint_text next) 6 "0"%char)%string, next + 1).
Proof. done. Qed.

(** X17.  A subject code is the text SUB followed by exactly six
    characters, and drawing it advances the sequence by one.  For sequence
    values from 0 to 999999 different values give different codes. *)
Theorem generate_subject_code_format (next next' : Z) :
  String.length (generate_subject_code next).1 = 9%nat ∧
  String.substring 0 3 (generate_subject_code next).1 = "SUB" ∧
  (generate_subject_code next).2 = next + 1 ∧
  (0 ≤ next < 1000000 → 0 ≤ next' < 1000000 →
   (generate_subject_code next).1 = (generate_subject_code next').1 →
   next = next').
Proof.
  rewrite !generate_subject_code_eq. cbn [fst snd].
  split; [by rewrite string_length_app, lpad_length|].
  split; [apply (substring_prefix "SUB")|]. split; [reflexivity|].
  intros Hn Hn' Heq. apply (inj (String.append "SUB")) in Heq.
  pose proof (lpad_text_value next Hn) as Hv.
  pose proof (lpad_text_value next' Hn') as Hv'.
  rewrite Heq, Hv' in Hv. injection Hv as Hv. lia.
Qed.

Lemma generate_subject_code_format_witness :
  String.length (generate_subject_code 41).1 = 9%nat ∧ 41 = 41.
Proof.
  destruct (generate_subject_code_format 41 41) as (Hlen & _ & _ & Hinj).
  split; [exact Hlen|]. apply Hinj; [lia|lia|reflexivity].
Defined.

(** X18.  From the sequence value 1000000 on, the text of the value has
    more than six digits and the code keeps only the first six of them, so
    different values share a code. *)
Theorem generate_subject_code_overflow (next : Z) :
  1000000 ≤ next →
  (6 < String.length (bigint_text next))%nat ∧
  (generate_subject_code next).1
  = ("SUB" +:+ String.substring 0 6 (bigint_text next))%string.
Proof.
  intros Hn.
  assert (6 < String.length (bigint_text next))%nat as Hlen
    by (apply bigint_text_length; lia).
  split; [done|]. rewrite generate_subject_code_eq. cbn [fst]. unfold lpad.
  rewrite (proj2 (Nat.leb_le _ _)) by lia. done.
Qed.

Lemma generate_subject_code_overflow_witness :
  (generate_subject_code 1000000).1 = "SUB100000" ∧
  (generate_subject_code 1000001).1 = "SUB100000" ∧
  (generate_subject_code 100000).1 = "SUB100000".
Proof.
  split; [|split; [|vm_compute; reflexivity]].
  - rewrite (proj2 (generate_subject_code_overflow 1000000 ltac:(lia))).
    vm_compute. reflexivity.
  - rewrite (proj2 (generate_subject_code_overflow 1000001 ltac:(lia))).
    vm_compute. reflexivity.
Defined.
End subject_codes.

Section subject_trigger.
Import Codes.

Lemma invite_retry_some (fuel : nat) (random : nat → Qc) (call : nat)
    (existing : list string) (v : string) (call' : nat) :
  invite_retry fuel random call existing = Some (v, call') →
  (v ∉ existing) ∧
  ∃ k, (k < fuel)%nat ∧ call' = (call + 8 * S k)%nat ∧
       v = (generate_invite_code random (call + 8 * k)).1 ∧
       ∀ j, (j < k)%nat →
            (generate_invite_code random (call + 8 * j)).1 ∈ existing.
Proof.
  revert call. induction fuel as [|fuel IH]; intros call; [done|].
  cbn [invite_retry]. unfold generate_invite_code at 1.
  case_bool_decide as Hin.
  - intros (Hv & k & Hk & -> & -> & Hbefore)%IH.
    split; [done|]. exists (S k). split; [lia|]. split; [lia|]. split.
    + f_equal. f_equal. lia.
    + intros [|j] Hj.
      * by rewrite Nat.mul_0_r, Nat.add_0_r.
      * replace (call + 8 * S j)%nat with (call + 8 + 8 * j)%nat by lia.
        apply Hbefore. lia.
  - intros [= <- <-]. split; [done|]. exists 0%nat.
    split; [lia|]. split; [lia|]. split.
    + by rewrite Nat.mul_0_r, Nat.add_0_r.
    + intros j ?. lia.
Qed.

Lemma invite_retry_returns (fuel : nat) (random : nat → Qc) (call : nat)
    (existing : list string) (k : nat) :
  (generate_invite_code random (call + 8 * k)).1 ∉ existing → (k < fuel)%nat →
  is_Some (invite_retry fuel random call existing).
Proof.
  revert call k. induction fuel as [|fuel IH]; intros call k Hfresh Hk; [lia|].
  cbn [invite_retry]. unfold generate_invite_code at 1.
  case_bool_decide as Hin; [|done].
  destruct k as [|k].
  - rewrite Nat.mul_0_r, Nat.add_0_r in Hfresh. done.
  - apply (IH _ k); [|lia].
    by replace (call + 8 + 8 * k)%nat with (call + 8 * S k)%nat by lia.
Qed.

(** X19.  When the trigger returns, it has changed nothing but codes that
    were [NULL]: a subject code or an invite code given by the statement is
    kept, and then the sequence, respectively [random()], is not touched.  A
    missing subject code is the next code of the sequence, which advances by
    one.  A missing invite code is a generated code that no row of
    [subjects] carries, found after rejecting only codes that are in use. *)
Theorem set_subject_codes_result (fuel : nat) (random : nat → Qc)
    (existing : list string) (NEW NEW' : subject) (s s' : session) :
  set_subject_codes fuel random existing NEW s = Some (NEW', s') →
  (subject_id NEW', name NEW', description NEW', teacher_id NEW', is_active NEW')
  = (subject_id NEW, name NEW, description NEW, teacher_id NEW, is_active NEW) ∧
  match subject_code NEW with
  | Some c => subject_code NEW' = Some c ∧
              next_subject_code s' = next_subject_code s
  | None => subject_code NEW'
            = Some (generate_subject_code (next_subject_code s)).1 ∧
            next_subject_code s' = next_subject_code s + 1
  end ∧
  match invite_code NEW with
  | Some v => invite_code NEW' = Some v ∧ random_calls s' = random_calls s
  | None =>
      ∃ v k, invite_code NEW' = Some v ∧ (v ∉ existing) ∧
             v = (generate_invite_code random (random_calls s + 8 * k)).1 ∧
             random_calls s' = (random_calls s + 8 * S k)%nat ∧
             ∀ j, (j < k)%nat →
                  (generate_invite_code random (random_calls s + 8 * j)).1
                  ∈ existing
  end.
Proof.
  unfold set_subject_codes.
  destruct (subject_code NEW) as [c|] eqn:Hcode;
    destruct (invite_code NEW) as [v|] eqn:Hinvite; cbn.
  - by intros [= <- <-].
  - destruct (invite_retry fuel random (random_calls s) existing)
      as [[v calls']|] eqn:Hretry; [|done].
    intros [= <- <-]. cbn. split; [done|]. split; [done|].
    apply invite_retry_some in Hretry as (Hv & k & _ & -> & -> & Hbefore).
    eexists _, k. by repeat split.
  - by intros [= <- <-].
  - destruct (invite_retry fuel random (random_calls s) existing)
      as [[v calls']|] eqn:Hretry; [|done].
    intros [= <- <-]. cbn. split; [done|]. split; [done|].
    apply invite_retry_some in Hretry as (Hv & k & _ & -> & -> & Hbefore).
    eexists _, k. by repeat split.
Qed.

(** X20.  The trigger returns at once when the statement gives an invite
    code, and otherwise as soon as a generated code is not in use: if the
    [k]-th code drawn is free, [k + 1] rounds suffice. *)
Theorem set_subject_codes_returns (fuel : nat) (random : nat → Qc)
    (existing : list string) (NEW : subject) (s : session) :
  (is_Some (invite_code NEW) →
   is_Some (set_subject_codes fuel random existing NEW s)) ∧
  (∀ k, (generate_invite_code random (random_calls s + 8 * k)).1 ∉ existing →
        (k < fuel)%nat →
        is_Some (set_subject_codes fuel random existing NEW s)).
Proof.
  unfold set_subject_codes. split.
  - intros [v ->]. by destruct (subject_code NEW).
  - intros k Hfresh Hk.
    destruct (invite_code NEW) as [v|]; [by destruct (subject_code NEW)|].
    destruct (invite_retry_returns fuel random (random_calls s) existing k
                Hfresh Hk) as [[v calls'] ->].
    by destruct (subject_code NEW).
Qed.
End subject_trigger.

Section trigger_witnesses.
Import Codes.

Lemma set_subject_codes_result_witness :
  subject_code
    {| subject_id := "s1"; subject_code := Some "SUB000007"; name := "Algebra";
       description := None; teacher_id := Some "T"; invite_code := Some "SSSSSSSS";
       is_active := Some true |} = Some "SUB000007" ∧
  next_subject_code {| next_subject_code := 8; random_calls := 8 |} = 7 + 1.
Proof.
  pose proof (set_subject_codes_result 1 (λ _, score 1 2) ["AAAAAAAA"]
    {| subject_id := "s1"; subject_code := None; name := "Algebra";
       description := None; teacher_id := Some "T"; invite_code := None;
       is_active := Some true |}
    {| subject_id := "s1"; subject_code := Some "SUB000007"; name := "Algebra";
       description := None; teacher_id := Some "T"; invite_code := Some "SSSSSSSS";
       is_active := Some true |}
    {| next_subject_code := 7; random_calls := 0 |}
    {| next_subject_code := 8; random_calls := 8 |}) as H.
  destruct H as (_ & Hcode & _); [vm_compute; reflexivity|].
  cbn [subject_code] in Hcode. destruct Hcode as [_ Hnext].
  split; [reflexivity|exact Hnext].
Defined.

Lemma set_subject_codes_returns_witness :
  is_Some (set_subject_codes 1 (λ _, score 1 2) ["AAAAAAAA"]
             {| subject_id := "s1"; subject_code := None; name := "Algebra";
                description := None; teacher_id := Some "T";
                invite_code := None; is_active := Some true |}
             {| next_subject_code := 7; random_calls := 0 |}).
Proof.
  apply (set_subject_codes_returns 1 (λ _, score 1 2) ["AAAAAAAA"]
           {| subject_id := "s1"; subject_code := None; name := "Algebra";
              description := None; teacher_id := Some "T";
              invite_code := None; is_active := Some true |}
           {| next_subject_code := 7; random_calls := 0 |}) with (k := 0%nat).
  - refine (bool_decide_unpack _ _). vm_compute. exact I.
  - lia.
Defined.
End trigger_witnesses.

Section schema_witness.
Import Schema.

Lemma run_rows_valid_witness :
  status Inputs.first_mark ∈ ["present"; "absent"; "late"].
Proof.
  apply (run_rows_valid classroom_methods
           [Insert Inputs.first_mark; Insert Inputs.second_mark]).
  vm_compute. apply list_elem_of_here.
Defined.
End schema_witness.

(** ** The attendance dashboard *)

Section dashboard.
Import TakeAttendance Dashboard.

End dashboard.

(** ** The attendance screen of the mobile app *)

Section attendance_screen.
Import AttendanceScreen.

(** X22.  Processing needs a captured image and a selected subject:
    without either nothing is sent.  Otherwise one upload is sent, for the
    captured image and the selected subject, always under the faculty id
    FAC001, and the processing flag is off afterwards.  After a success the
    image is dropped, so pressing again sends nothing; after a failure the
    image is kept and pressing again sends the same upload. *)
Theorem processAttendance_retry (o o' : Outcome) (st : State) :
  let out := processAttendance o st in
  (truthy (capturedImage st) = false ∨ selectedSubject st = "" →
   out = (st, [], None)) ∧
  (truthy (capturedImage st) = true → selectedSubject st ≠ "" →
   out.1.2 = [ {| file_uri := default "" (capturedImage st);
                  subject_id := selectedSubject st; faculty_id := "FAC001" |} ] ∧
   processing out.1.1 = false ∧
   selectedSubject out.1.1 = selectedSubject st ∧
   match out.2 with
   | Some (Success _) =>
       capturedImage out.1.1 = None ∧
       (processAttendance o' out.1.1).1.2 = []
   | _ =>
       capturedImage out.1.1 = capturedImage st ∧
       (processAttendance o' out.1.1).1.2 = out.1.2
   end).
Proof.
  intros out. subst out. unfold processAttendance. split.
  - intros [Himg|Hsub].
    + by rewrite Himg.
    + rewrite Hsub. simpl. by rewrite orb_true_r.
  - intros Himg Hsub. rewrite Himg.
    assert (truthy (Some (selectedSubject st)) = true) as Hsubject.
    { simpl. by rewrite bool_decide_eq_false_2. }
    rewrite Hsubject. cbn [negb orb].
    destruct o as [|[|] [count|]]; cbn; rewrite ?Himg; try done;
      rewrite (bool_decide_eq_false_2 _ Hsub); cbn;
      by destruct o' as [|[|] [count'|]].
Qed.

Lemma processAttendance_retry_witness :
  (processAttendance Threw
     {| capturedImage := Some "file:///photo.jpg"; processing := false;
        showSubjectModal := false; selectedSubject := "CS101" |}).1.2
  = [ {| file_uri := "file:///photo.jpg"; subject_id := "CS101";
         faculty_id := "FAC001" |} ].
Proof.
  apply (processAttendance_retry Threw Threw
           {| capturedImage := Some "file:///photo.jpg"; processing := false;
              showSubjectModal := false; selectedSubject := "CS101" |}).
  - reflexivity.
  - discriminate.
Defined.
End attendance_screen.

(** ** Face registration on the profile page *)

Section profile.
Import Profile.

(** X23.  After a photo was submitted for registration the upload flag is
    off and a banner is shown: green after a response that is [ok]; red
    after a network error, an unreadable error reply, or an error reply
    without [detail] (or with an empty one), which is reported as "Failed to
    register face".  An error reply with a [detail] shows that text, and in
    green exactly when the text contains "successfully". *)
Theorem handleFaceRegistration_banner (o : Outcome) (st : State) :
  let st' := handleFaceRegistration true o st in
  uploading st' = false ∧
  banner st' ≠ NoBanner ∧
  (∀ e, o = Responded true e → banner st' = Green) ∧
  (o = Threw ∨ o = Responded false None → banner st' = Red) ∧
  (o = Responded false (Some None) ∨ o = Responded false (Some (Some "")) →
   message st' = "Failed to register face" ∧ banner st' = Red) ∧
  (∀ detail, detail ≠ "" → o = Responded false (Some (Some detail)) →
   message st' = detail ∧
   (banner st' = Green ↔ includes "successfully" detail = true)).
Proof.
  intros st'. subst st'.
  assert (∀ detail, detail ≠ "" →
            banner (handleFaceRegistration true
                      (Responded false (Some (Some detail))) st)
            = if includes "successfully" detail then Green else Red) as Hdetail.
  { intros detail Hne. unfold banner, handleFaceRegistration.
    cbn [negb message]. unfold or_else.
    rewrite (bool_decide_eq_false_2 _ Hne).
    by rewrite (bool_decide_eq_false_2 _ Hne). }
  split; [done|]. split.
  - destruct o as [|[|] [[detail|]|]]; try (vm_compute; discriminate).
    destruct (decide (detail = "")) as [->|Hne]; [vm_compute; discriminate|].
    rewrite Hdetail by done. by destruct (includes "successfully" detail).
  - split; [by intros e ->|]. split; [by intros [-> | ->]|]. split.
    + by intros [-> | ->].
    + intros detail Hne ->. split.
      * unfold handleFaceRegistration. cbn [negb message]. unfold or_else.
        by rewrite (bool_decide_eq_false_2 _ Hne).
      * rewrite Hdetail by done.
        by destruct (includes "successfully" detail).
Qed.

Lemma handleFaceRegistration_banner_witness :
  banner (handleFaceRegistration true
            (Responded false (Some (Some "Face was not registered successfully")))
            {| uploading := false; message := "" |}) = Green.
Proof.
  pose proof (handleFaceRegistration_banner
           (Responded false (Some (Some "Face was not registered successfully")))
           {| uploading := false; message := "" |}) as H.
  cbv zeta in H. destruct H as (_ & _ & _ & _ & _ & Hdetail).
  apply (Hdetail "Face was not registered successfully").
  - discriminate.
  - reflexivity.
  - reflexivity.
Defined.
End profile.

Section dashboard_witness.
Import Dashboard.

End dashboard_witness.
